(** * OpenFst: header records, read options and the two command-line tools

    A shallow embedding of [src/lib/fst.cc] ([FstHeader::Read],
    [FstHeader::Write], [FstReadOptions::ReadMode]) and of the [main]
    functions of [fstconvert.cc] and [fsttopsort.cc].

    Streams are modelled after [std::istream] / [std::ostream] over a
    byte buffer that can seek (a file, a string) or cannot (a pipe, the
    standard input), with the state bits the source tests ([!strm]).
    Integers are [Z] with the wrap-around of their C++ type written out;
    their object representation is little-endian two's complement. *)

From Stdlib Require Import ZArith List Lia Bool.
From Stdlib.Strings Require Import String Byte.
From Stdlib Require Import DecimalString.
From stdpp Require Import strings gmap.
Import ListNotations.

Local Open Scope string_scope.
Local Open Scope list_scope.
Local Open Scope Z_scope.

(** ** Bytes and fixed-width integers *)

Definition Z_of_byte (b : byte) : Z := Z.of_N (Byte.to_N b).

Definition byte_of_Z (z : Z) : byte :=
  match Byte.of_N (Z.to_N (z mod 256)) with
  | Some b => b
  | None => x00
  end.

(** The integer types of the header fields. *)
Inductive ctype : Type := Int32 | Int64 | UInt64.

Definition size_of (t : ctype) : nat :=
  match t with Int32 => 4%nat | Int64 => 8%nat | UInt64 => 8%nat end.

Definition is_signed (t : ctype) : bool :=
  match t with Int32 => true | Int64 => true | UInt64 => false end.

Definition bits_of (t : ctype) : Z := 8 * Z.of_nat (size_of t).

(** The values a variable of type [t] can hold. *)
Definition in_range (t : ctype) (z : Z) : Prop :=
  if is_signed t
  then - 2 ^ (bits_of t - 1) <= z < 2 ^ (bits_of t - 1)
  else 0 <= z < 2 ^ bits_of t.

(** Object representation: [n] bytes, least significant first. *)
Fixpoint le_bytes (n : nat) (z : Z) : list byte :=
  match n with
  | O => []
  | S k => byte_of_Z z :: le_bytes k (Z.shiftr z 8)
  end.

Fixpoint le_value (bs : list byte) : Z :=
  match bs with
  | [] => 0
  | b :: r => Z_of_byte b + 256 * le_value r
  end.

(** Reinterpretation of an unsigned bit pattern as a value of type [t]. *)
Definition of_bits (t : ctype) (u : Z) : Z :=
  if is_signed t && (2 ^ (bits_of t - 1) <=? u) then u - 2 ^ bits_of t else u.

Definition encode (t : ctype) (z : Z) : list byte := le_bytes (size_of t) z.
Definition decode (t : ctype) (bs : list byte) : Z := of_bits t (le_value bs).

(** ** Input streams *)

(** A [std::istream]: the bytes it delivers, the get position, the two
    state bits the code depends on, and whether its buffer can seek (a
    file or a string can, a pipe or a terminal cannot). *)
Record istream : Type := mk_stream {
  in_buf : list byte;
  in_pos : nat;
  in_fail : bool;   (* failbit *)
  in_eof : bool;    (* eofbit *)
  in_seekable : bool
}.

(** A stream over a buffer that can seek. *)
Definition mk_istream (buf : list byte) (pos : nat) (fail eof : bool)
    : istream :=
  mk_stream buf pos fail eof true.

Definition in_good (s : istream) : bool := negb (in_fail s) && negb (in_eof s).

Definition set_fail (s : istream) : istream :=
  mk_stream (in_buf s) (in_pos s) true (in_eof s) (in_seekable s).

Definition remaining (s : istream) : list byte := skipn (in_pos s) (in_buf s).

(** [strm.tellg()]: the sentry sets failbit on a stream that is not good;
    if [fail()] holds after that the result is -1, else what the buffer
    answers: the get position, or -1 when it cannot seek (the state is
    left as it is then). *)
Definition tellg (s : istream) : Z * istream :=
  if in_good s
  then ((if in_seekable s then Z.of_nat (in_pos s) else -1), s)
  else (-1, set_fail s).

(** [strm.seekg(pos)]: clears eofbit first; then, only if [fail()] does
    not hold, asks the buffer to seek to [pos], and sets failbit when the
    buffer cannot: when it cannot seek at all, or [pos] is not a position
    of it. A failed stream is therefore not moved: the state has to be
    cleared before, which [seekg] does not do. *)
Definition seekg (s : istream) (pos : Z) : istream :=
  let s1 := mk_stream (in_buf s) (in_pos s) (in_fail s) false (in_seekable s) in
  if in_fail s1 then s1
  else if in_seekable s1 && (0 <=? pos)
          && (pos <=? Z.of_nat (length (in_buf s1)))
       then mk_stream (in_buf s1) (Z.to_nat pos) false false (in_seekable s1)
       else set_fail s1.

(** [strm.read(buf, n)]: extracts [n] bytes; when fewer are left it
    extracts those and sets eofbit and failbit; from a stream that is not
    good it extracts nothing and sets failbit. The bytes extracted are
    returned. *)
Definition read (s : istream) (n : nat) : list byte * istream :=
  if in_good s then
    let avail := remaining s in
    if (n <=? length avail)%nat
    then (firstn n avail,
          mk_stream (in_buf s) (in_pos s + n) false false (in_seekable s))
    else (avail,
          mk_stream (in_buf s) (in_pos s + length avail) true true
            (in_seekable s))
  else ([], set_fail s).

(** ** Output streams *)

(** A [std::ostream] over a sink that may run out of room
    ([out_room = None]: unbounded); badbit is set when a write cannot be
    completed, and later writes then do nothing. *)
Record ostream : Type := mk_ostream {
  out_buf : list byte;
  out_room : option nat;
  out_bad : bool
}.

Definition write (s : ostream) (bs : list byte) : ostream :=
  if out_bad s then s
  else match out_room s with
       | None => mk_ostream (out_buf s ++ bs) None false
       | Some r =>
           if (length bs <=? r)%nat
           then mk_ostream (out_buf s ++ bs) (Some (r - length bs)%nat) false
           else mk_ostream (out_buf s ++ firstn r bs) (Some 0%nat) true
       end.

(** ** ReadType / WriteType *)

(** Modelled from the spec: [ReadType] and [WriteType] of [fst/util.h] are
    not part of the sources at hand. Section 6 of the specification gives
    every integer field a fixed-width encoding and strings a length
    prefix; the prefix is an [int32], as for the other 32-bit fields. An
    integer is read into the bytes of the variable it is read into, so a
    short read overwrites only the leading bytes. *)
Definition ReadType_int (t : ctype) (strm : istream) (cur : Z) : Z * istream :=
  let '(bs, strm) := read strm (size_of t) in
  (decode t (bs ++ skipn (length bs) (encode t cur)), strm).

Definition WriteType_int (t : ctype) (strm : ostream) (v : Z) : ostream :=
  write strm (encode t v).

(** Modelled from the spec: the string overload of [ReadType]; it clears
    the string, reads the length prefix and then that many characters
    (those the stream still delivers). *)
Definition ReadType_string (strm : istream) : string * istream :=
  let '(ns, strm) := ReadType_int Int32 strm 0 in
  if ns <=? 0 then (EmptyString, strm)
  else let '(bs, strm) := read strm (Z.to_nat ns) in
       (string_of_list_byte bs, strm).

(** Modelled from the spec: the string overload of [WriteType]; the length
    is narrowed to [int32] before it is written. *)
Definition WriteType_string (strm : ostream) (s : string) : ostream :=
  let ns := decode Int32 (encode Int32 (Z.of_nat (String.length s))) in
  let strm := write strm (encode Int32 ns) in
  write strm (firstn (Z.to_nat ns) (list_byte_of_string s)).

(** ** Logging *)

Inductive severity : Type := ERROR | WARNING.

(** One [LOG(severity) << ...] line. *)
Definition log_entry : Type := severity * string.

(** [operator<<] of an integer: its decimal digits. *)
Definition show_int (z : Z) : string := NilEmpty.string_of_int (Z.to_int z).

(** ** FstHeader *)

(** Modelled from the spec: the fixed sentinel [kFstMagicNumber]; it is
    declared in [fst/fst.h], which is not at hand, as 2125659606. *)
Definition kFstMagicNumber : Z := 2125659606.

Record FstHeader : Type := mk_header {
  fsttype_ : string;     (* std::string *)
  arctype_ : string;     (* std::string *)
  version_ : Z;          (* int32 *)
  flags_ : Z;            (* int32 *)
  properties_ : Z;       (* uint64 *)
  start_ : Z;            (* int64 *)
  numstates_ : Z;        (* int64 *)
  numarcs_ : Z           (* int64 *)
}.

(** What a call of [FstHeader::Read] leaves behind: the value returned,
    the header object, the stream and the lines logged. *)
Record read_outcome : Type := mk_outcome {
  r_ok : bool;
  r_header : FstHeader;
  r_strm : istream;
  r_log : list log_entry
}.

(** The eight [ReadType] calls of [FstHeader::Read], in their order. *)
Definition read_fields (h : FstHeader) (strm : istream) : FstHeader * istream :=
  let '(fsttype, strm) := ReadType_string strm in
  let '(arctype, strm) := ReadType_string strm in
  let '(version, strm) := ReadType_int Int32 strm (version_ h) in
  let '(flags, strm) := ReadType_int Int32 strm (flags_ h) in
  let '(properties, strm) := ReadType_int UInt64 strm (properties_ h) in
  let '(start, strm) := ReadType_int Int64 strm (start_ h) in
  let '(numstates, strm) := ReadType_int Int64 strm (numstates_ h) in
  let '(numarcs, strm) := ReadType_int Int64 strm (numarcs_ h) in
  (mk_header fsttype arctype version flags properties start numstates numarcs,
   strm).

(** [bool FstHeader::Read(std::istream &strm, const std::string &source,
    bool rewind)]; [h] is the header object the method is called on. *)
Definition Read (h : FstHeader) (strm : istream) (source : string)
    (rewind : bool) : read_outcome :=
  let '(pos, strm) := if rewind then tellg strm else (0, strm) in
  let '(magic_number, strm) := ReadType_int Int32 strm 0 in
  if negb (magic_number =? kFstMagicNumber) then
    let log := [(ERROR, ("FstHeader::Read: Bad FST header: " ++ source
                         ++ ". Magic number not matched. Got: "
                         ++ show_int magic_number)%string)] in
    let strm := if rewind then seekg strm pos else strm in
    mk_outcome false h strm log
  else
    let '(h, strm) := read_fields h strm in
    if in_fail strm then
      mk_outcome false h strm
        [(ERROR, ("FstHeader::Read: Read failed: " ++ source)%string)]
    else
      let strm := if rewind then seekg strm pos else strm in
      mk_outcome true h strm [].

(** [bool FstHeader::Write(std::ostream &strm, const std::string &) const]. *)
Definition Write (h : FstHeader) (strm : ostream) (source : string)
    : bool * ostream :=
  let strm := WriteType_int Int32 strm kFstMagicNumber in
  let strm := WriteType_string strm (fsttype_ h) in
  let strm := WriteType_string strm (arctype_ h) in
  let strm := WriteType_int Int32 strm (version_ h) in
  let strm := WriteType_int Int32 strm (flags_ h) in
  let strm := WriteType_int UInt64 strm (properties_ h) in
  let strm := WriteType_int Int64 strm (start_ h) in
  let strm := WriteType_int Int64 strm (numstates_ h) in
  let strm := WriteType_int Int64 strm (numarcs_ h) in
  (true, strm).

(** ** FstReadOptions *)

Inductive FileReadMode : Type := READ | MAP.

(** [FstReadOptions::ReadMode(const std::string &mode)], with the lines it
    logs. *)
Definition ReadMode (mode : string) : FileReadMode * list log_entry :=
  if String.eqb mode "read" then (READ, [])
  else if String.eqb mode "map" then (MAP, [])
  else (READ, [(ERROR, ("Unknown file read mode " ++ mode)%string)]).

(** ** Vocabulary of the statements about FstHeader *)

(** The stream [n] bytes further on, in good state. *)
Definition advance (s : istream) (n : nat) : istream :=
  mk_stream (in_buf s) (in_pos s + n) false false (in_seekable s).

(** The bytes of a string on the wire: its length, then its characters. *)
Definition wire_string (s : string) : list byte :=
  encode Int32 (Z.of_nat (String.length s)) ++ list_byte_of_string s.

(** The layout of section 6: magic number first, then the eight fields. *)
Definition header_bytes (h : FstHeader) : list byte :=
  encode Int32 kFstMagicNumber
  ++ wire_string (fsttype_ h)
  ++ wire_string (arctype_ h)
  ++ encode Int32 (version_ h)
  ++ encode Int32 (flags_ h)
  ++ encode UInt64 (properties_ h)
  ++ encode Int64 (start_ h)
  ++ encode Int64 (numstates_ h)
  ++ encode Int64 (numarcs_ h).

(** A header record whose fields are values of their C++ types, with
    strings whose length an [int32] can hold. *)
Record header_wf (h : FstHeader) : Prop := mk_header_wf {
  wf_fsttype : Z.of_nat (String.length (fsttype_ h)) < 2 ^ 31;
  wf_arctype : Z.of_nat (String.length (arctype_ h)) < 2 ^ 31;
  wf_version : in_range Int32 (version_ h);
  wf_flags : in_range Int32 (flags_ h);
  wf_properties : in_range UInt64 (properties_ h);
  wf_start : in_range Int64 (start_ h);
  wf_numstates : in_range Int64 (numstates_ h);
  wf_numarcs : in_range Int64 (numarcs_ h)
}.

(** The magic number [FstHeader::Read] gets from a stream, and the stream
    it then reads the fields from. *)
Definition magic_read (s : istream) : Z := fst (ReadType_int Int32 s 0).
Definition after_magic (s : istream) : istream := snd (ReadType_int Int32 s 0).

(** [s'] is what reading from [s] leaves: the same buffer, no earlier in
    it, and not failed only if [s] was good and the reads stayed inside
    the buffer. *)
Record reads_from (s s' : istream) : Prop := mk_reads_from {
  rf_buf : in_buf s' = in_buf s;
  rf_seek : in_seekable s' = in_seekable s;
  rf_pos : (in_pos s <= in_pos s')%nat;
  rf_ok : in_fail s' = false ->
          in_good s = true /\ in_eof s' = false
          /\ (in_pos s' <= length (in_buf s))%nat
}.

(** ** The script-level library and the process state of the tools *)

(** Modelled from the spec: [FstClass::Read], [FstClass::FstType],
    [script::Convert], [FstClass::Write], [FstClass::Properties],
    the [VectorFstClass] copy constructor and [script::TopSort] belong to
    [fst/script], which is not at hand. Sections 4.4 to 4.6 of the
    specification give them these signatures: reading and converting yield
    an automaton or nothing, writing yields a boolean, sorting reorders
    the automaton it is given and tells whether it was acyclic. *)
Record script_lib (Fst : Type) : Type := mk_lib {
  lib_read : string -> option Fst;
  lib_fst_type : Fst -> string;
  lib_convert : Fst -> string -> option Fst;
  lib_write : Fst -> string -> bool;
  lib_is_mutable : Fst -> bool;
  lib_vector_copy : Fst -> Fst;
  lib_topsort : Fst -> Fst * bool
}.
Arguments lib_read {Fst}.
Arguments lib_fst_type {Fst}.
Arguments lib_convert {Fst}.
Arguments lib_write {Fst}.
Arguments lib_is_mutable {Fst}.
Arguments lib_vector_copy {Fst}.
Arguments lib_topsort {Fst}.

(** An [FstClass *]; the null pointer is [None]. *)
Definition ptr : Type := nat.

(** What a run of a tool does, in order. *)
Inductive event (Fst : Type) : Type :=
| EvShowUsage (usage : string)
| EvRead (name : string) (res : option ptr)
| EvConvert (src : ptr) (fst_type : string) (res : option ptr)
| EvNewVector (src : ptr) (res : ptr)
| EvDelete (p : ptr)
| EvTopSort (p : ptr) (acyclic : bool)
| EvWrite (p : ptr) (f : Fst) (name : string) (ok : bool)
| EvLog (e : log_entry).
Arguments EvShowUsage {Fst}.
Arguments EvRead {Fst}.
Arguments EvConvert {Fst}.
Arguments EvNewVector {Fst}.
Arguments EvDelete {Fst}.
Arguments EvTopSort {Fst}.
Arguments EvWrite {Fst}.
Arguments EvLog {Fst}.

(** The heap of automata the process owns, and what it has done so far. *)
Record world (Fst : Type) : Type := mk_world {
  heap : gmap nat Fst;
  trace : list (event Fst)
}.
Arguments mk_world {Fst}.
Arguments heap {Fst}.
Arguments trace {Fst}.

(** Computations of a tool: they change the world and yield a value;
    [None] stands for the use of a pointer to no live object. *)
Definition run (Fst A : Type) : Type := world Fst -> option (A * world Fst).

Definition ret {Fst A} (a : A) : run Fst A := fun w => Some (a, w).

Definition bind {Fst A B} (c : run Fst A) (k : A -> run Fst B) : run Fst B :=
  fun w => match c w with
           | Some (a, w') => k a w'
           | None => None
           end.

Declare Scope run_scope.
Delimit Scope run_scope with run.
Notation "x <~ c ;; k" := (bind c (fun x => k))
  (at level 100, c at next level, right associativity) : run_scope.
Notation "c ;;; k" := (bind c (fun _ => k))
  (at level 100, right associativity) : run_scope.

(** ** The command line *)

(** The line feed the usage texts are built with. *)
Definition newline : string := String (Ascii.ascii_of_nat 10) EmptyString.

Definition argc (argv : list string) : Z := Z.of_nat (length argv).

(** [argv[i]] *)
Definition arg (argv : list string) (i : nat) : string := nth i argv "".

(** The usage text both tools build: what the tool does, then how it is
    called. *)
Definition usage_of (what : string) (argv : list string) : string :=
  (what ++ newline ++ newline ++ "  Usage: " ++ arg argv 0
   ++ " [in.fst [out.fst]]" ++ newline)%string.

(** The input name both tools take from the command line: none, or
    ["-"], stands for the standard input. *)
Definition in_name_of (argv : list string) : string :=
  if (1 <? argc argv) && negb (String.eqb (arg argv 1) "-")
  then arg argv 1 else "".

(** The output name: none stands for the standard output. *)
Definition out_name_of (argv : list string) : string :=
  if 2 <? argc argv then arg argv 2 else "".

Section Tools.
Context {Fst : Type} (lib : script_lib Fst).

Definition emit (e : event Fst) : run Fst unit :=
  fun w => Some (tt, mk_world (heap w) (trace w ++ [e])).

(** Dereferencing [p]. *)
Definition deref (p : ptr) : run Fst Fst :=
  fun w => match heap w !! p with
           | Some f => Some (f, w)
           | None => None
           end.

(** [new]: an address that holds no live object. *)
Definition alloc (f : Fst) : run Fst ptr :=
  fun w => let p := fresh (dom (heap w)) in
           Some (p, mk_world (<[p := f]> (heap w)) (trace w)).

(** [delete p] *)
Definition free (p : ptr) : run Fst unit :=
  (_ <~ deref p ;;
   fun w => Some (tt, mk_world (delete p (heap w)) (trace w ++ [EvDelete p])))%run.

(** [FstClass::Read(name)] *)
Definition FstClass_Read (name : string) : run Fst (option ptr) :=
  (match lib_read lib name with
   | None => emit (EvRead name None) ;;; ret None
   | Some f => p <~ alloc f ;; emit (EvRead name (Some p)) ;;; ret (Some p)
   end)%run.

(** [p->FstType()] *)
Definition FstType (p : ptr) : run Fst string :=
  (f <~ deref p ;; ret (lib_fst_type lib f))%run.

(** [script::Convert] of the object at [p] *)
Definition Convert (p : ptr) (fst_type : string) : run Fst (option ptr) :=
  (f <~ deref p ;;
   match lib_convert lib f fst_type with
   | None => emit (EvConvert p fst_type None) ;;; ret None
   | Some g =>
       q <~ alloc g ;; emit (EvConvert p fst_type (Some q)) ;;; ret (Some q)
   end)%run.

(** [p->Write(name)] *)
Definition FstClass_Write (p : ptr) (name : string) : run Fst bool :=
  (f <~ deref p ;;
   let ok := lib_write lib f name in
   emit (EvWrite p f name ok) ;;; ret ok)%run.

(** [p->Properties(fst::kMutable, false)], as a truth value *)
Definition Properties_kMutable (p : ptr) : run Fst bool :=
  (f <~ deref p ;; ret (lib_is_mutable lib f))%run.

(** [new VectorFstClass] copied from the object at [p] *)
Definition new_VectorFstClass (p : ptr) : run Fst ptr :=
  (f <~ deref p ;;
   q <~ alloc (lib_vector_copy lib f) ;;
   emit (EvNewVector p q) ;;; ret q)%run.

(** [TopSort] of [p]: reorders the object at [p] where it is. *)
Definition TopSort (p : ptr) : run Fst bool :=
  (f <~ deref p ;;
   let '(g, acyclic) := lib_topsort lib f in
   (fun w => Some (tt, mk_world (<[p := g]> (heap w)) (trace w))) ;;;
   emit (EvTopSort p acyclic) ;;; ret acyclic)%run.

(** [main] of [fstconvert.cc]; [argv] is the command line once the
    flags are taken out of it, [FLAGS_fst_type] the output type flag. *)
Definition fstconvert_main (FLAGS_fst_type : string) (argv : list string)
    : run Fst Z :=
  (let usage := usage_of "Converts an FST to another type." argv in
   if 3 <? argc argv then emit (EvShowUsage usage) ;;; ret 1
   else
     let in_name := in_name_of argv in
     let out_name := out_name_of argv in
     ifst <~ FstClass_Read in_name ;;
     match ifst with
     | None => ret 1
     | Some ifst =>
         let ofst := Some ifst in
         match ofst with
         | None => ret 1
         | Some ofst =>
             t <~ FstType ofst ;;
             ofst <~ (if negb (String.eqb t FLAGS_fst_type)
                      then Convert ifst FLAGS_fst_type
                      else ret (Some ofst)) ;;
             match ofst with
             | None => ret 1
             | Some ofst => FstClass_Write ofst out_name ;;; ret 0
             end
         end
     end)%run.

(** [main] of [fsttopsort.cc]. *)
Definition fsttopsort_main (argv : list string) : run Fst Z :=
  (let usage := usage_of "Topologically sorts an FST." argv in
   if 3 <? argc argv then emit (EvShowUsage usage) ;;; ret 1
   else
     let in_fname := in_name_of argv in
     let out_fname := out_name_of argv in
     ifst <~ FstClass_Read in_fname ;;
     match ifst with
     | None => ret 1
     | Some ifst =>
         m <~ Properties_kMutable ifst ;;
         ofst <~ (if m then ret ifst
                  else (q <~ new_VectorFstClass ifst ;; free ifst ;;; ret q)) ;;
         acyclic <~ TopSort ofst ;;
         (if negb acyclic
          then emit (EvLog (WARNING,
                            (arg argv 0 ++ ": Input FST is cyclic")%string))
          else ret tt) ;;;
         FstClass_Write ofst out_fname ;;;
         ret 0
     end)%run.
End Tools.

Definition empty_world {Fst : Type} : world Fst := mk_world ∅ [].

(** ** Sample inputs *)

Definition blank_header : FstHeader := mk_header "" "" 0 0 0 0 0 0.

Definition sample_header : FstHeader :=
  mk_header "vector" "standard" 2 3 (2 ^ 40 + 5) (-1) 7 12.

(** An input stream positioned at the start of [bs]. *)
Definition stream_of (bs : list byte) : istream := mk_istream bs 0 false false.

(** A file that ends right after a valid magic number. *)
Definition truncated_stream : istream :=
  stream_of (encode Int32 kFstMagicNumber).

(** A file of two bytes. *)
Definition short_stream : istream := stream_of [xd6; xfd].

(** An input stream that delivers [bs] and cannot seek: a pipe. *)
Definition pipe_of (bs : list byte) : istream :=
  mk_stream bs 0 false false false.

(** A file of five bytes that does not start with the magic number. *)
Definition foreign_stream : istream := stream_of [x01; x02; x03; x04; x05].

(** A sink with room for ten more bytes. *)
Definition small_sink : ostream := mk_ostream [] (Some 10%nat) false.

(** A library over automata of which only the name of the encoding and
    whether they have a cycle is known: every file but ["missing"] holds a
    ["const"] automaton, the one in ["cyclic.fst"] with a cycle;
    conversion knows the ["vector"] encoding alone; nothing can be
    written. *)
Definition sample_lib : script_lib (string * bool) :=
  mk_lib (string * bool)
    (fun name =>
       if String.eqb name "missing" then None
       else Some ("const", String.eqb name "cyclic.fst"))
    (fun f => fst f)
    (fun f fst_type =>
       if String.eqb fst_type "vector" then Some ("vector", snd f) else None)
    (fun f name => false)
    (fun f => String.eqb (fst f) "vector")
    (fun f => ("vector", snd f))
    (fun f => (f, negb (snd f))).

(** The same, over files that hold acyclic ["vector"] automata. *)
Definition vector_lib : script_lib (string * bool) :=
  mk_lib (string * bool) (fun name => Some ("vector", false))
    (lib_fst_type sample_lib) (lib_convert sample_lib) (lib_write sample_lib)
    (lib_is_mutable sample_lib) (lib_vector_copy sample_lib)
    (lib_topsort sample_lib).

(** The automaton the sort tool sorts: the one read when it is mutable,
    else its copy into the vector encoding. *)
Definition sort_input {Fst : Type} (lib : script_lib Fst) (f : Fst) : Fst :=
  if lib_is_mutable lib f then f else lib_vector_copy lib f.

(** The warning of the sort tool. *)
Definition cyclic_warning {Fst : Type} (argv : list string) : event Fst :=
  EvLog (WARNING, (arg argv 0 ++ ": Input FST is cyclic")%string).

(** Whether an event is a call of [script::Convert]. *)
Definition is_convert {Fst : Type} (e : event Fst) : bool :=
  match e with EvConvert _ _ _ => true | _ => false end.

(** Whether an event makes or releases an automaton object after the
    read. *)
Definition is_new_or_delete {Fst : Type} (e : event Fst) : bool :=
  match e with
  | EvNewVector _ _ | EvDelete _ | EvConvert _ _ _ => true
  | _ => false
  end.

(** ** FstReadOptions: the constructors *)

(** The options of a read; [SymbolTable] is the type of symbol tables, of
    which the constructors only pass pointers on (null is [None]). *)
Record FstReadOptions (SymbolTable : Type) : Type := mk_options {
  opt_source : string;
  opt_header : option FstHeader;
  opt_isymbols : option SymbolTable;
  opt_osymbols : option SymbolTable;
  opt_read_isymbols : bool;
  opt_read_osymbols : bool;
  opt_mode : FileReadMode
}.
Arguments mk_options {SymbolTable}.
Arguments opt_source {SymbolTable}.
Arguments opt_header {SymbolTable}.
Arguments opt_isymbols {SymbolTable}.
Arguments opt_osymbols {SymbolTable}.
Arguments opt_read_isymbols {SymbolTable}.
Arguments opt_read_osymbols {SymbolTable}.
Arguments opt_mode {SymbolTable}.

(** [FstReadOptions(source, header, isymbols, osymbols)]; the flag
    [FLAGS_fst_read_mode] is an argument, the lines logged a result. *)
Definition FstReadOptions_with_header {SymbolTable : Type}
    (FLAGS_fst_read_mode : string) (source : string)
    (header : option FstHeader) (isymbols osymbols : option SymbolTable)
    : FstReadOptions SymbolTable * list log_entry :=
  let '(mode, log) := ReadMode FLAGS_fst_read_mode in
  (mk_options source header isymbols osymbols true true mode, log).

(** [FstReadOptions(source, isymbols, osymbols)]. *)
Definition FstReadOptions_no_header {SymbolTable : Type}
    (FLAGS_fst_read_mode : string) (source : string)
    (isymbols osymbols : option SymbolTable)
    : FstReadOptions SymbolTable * list log_entry :=
  let '(mode, log) := ReadMode FLAGS_fst_read_mode in
  (mk_options source None isymbols osymbols true true mode, log).

(** ** Vocabulary of the further statements *)

(** The least number of bytes a header takes: the magic number, two empty
    strings and the six integer fields. *)
Definition min_header_size : nat := 52.

(** Whether an event is a call of [Write]. *)
Definition is_write {Fst : Type} (e : event Fst) : bool :=
  match e with EvWrite _ _ _ _ => true | _ => false end.

(** Whether an event is a [delete]. *)
Definition is_delete {Fst : Type} (e : event Fst) : bool :=
  match e with EvDelete _ => true | _ => false end.

(** What a run from [w] to [w'] has added to the trace. *)
Definition new_events {Fst : Type} (w w' : world Fst) : list (event Fst) :=
  skipn (length (trace w)) (trace w').

(** * Properties *)

(** ** The integer encoding *)

Lemma Z_of_byte_range (b : byte) : 0 <= Z_of_byte b < 256.
Proof.
  unfold Z_of_byte. pose proof (Byte.to_N_bounded b). lia.
Qed.

Lemma Z_of_byte_of_Z (z : Z) : Z_of_byte (byte_of_Z z) = z mod 256.
Proof.
  unfold byte_of_Z, Z_of_byte.
  assert (Hr : 0 <= z mod 256 < 256) by (apply Z.mod_pos_bound; lia).
  destruct (Byte.of_N (Z.to_N (z mod 256))) as [b|] eqn:E.
  - apply Byte.to_of_N in E. rewrite E. lia.
  - apply Byte.of_N_None_iff in E. lia.
Qed.

Lemma byte_of_Z_of_byte (b : byte) : byte_of_Z (Z_of_byte b) = b.
Proof.
  unfold byte_of_Z. rewrite Z.mod_small by apply Z_of_byte_range.
  unfold Z_of_byte. rewrite N2Z.id, Byte.of_to_N. reflexivity.
Qed.

Lemma length_le_bytes (n : nat) (z : Z) : length (le_bytes n z) = n.
Proof.
  revert z. induction n as [|n IH]; intros z; simpl; [reflexivity|].
  now rewrite IH.
Qed.

Lemma le_value_le_bytes (n : nat) (z : Z) :
  le_value (le_bytes n z) = z mod 2 ^ (8 * Z.of_nat n).
Proof.
  revert z. induction n as [|n IH]; intros z.
  - simpl. now rewrite Z.mod_1_r.
  - cbn [le_bytes le_value]. rewrite IH, Z_of_byte_of_Z.
    rewrite Z.shiftr_div_pow2 by lia.
    replace (8 * Z.of_nat (S n)) with (8 + 8 * Z.of_nat n) by lia.
    rewrite Z.pow_add_r by lia.
    change (2 ^ 8) with 256.
    rewrite Z.rem_mul_r by lia. reflexivity.
Qed.

Lemma le_value_range (bs : list byte) :
  0 <= le_value bs < 2 ^ (8 * Z.of_nat (length bs)).
Proof.
  induction bs as [|b r IH].
  - simpl. lia.
  - cbn [le_value length].
    replace (8 * Z.of_nat (S (length r))) with (8 + 8 * Z.of_nat (length r))
      by lia.
    rewrite Z.pow_add_r by lia. change (2 ^ 8) with 256.
    pose proof (Z_of_byte_range b). lia.
Qed.

Lemma length_encode (t : ctype) (z : Z) : length (encode t z) = size_of t.
Proof. apply length_le_bytes. Qed.

(** Replaces the width of each integer type, and the powers of two made
    from it, by their numerals. *)
Ltac widths :=
  change (bits_of Int32) with 32 in *;
  change (bits_of Int64) with 64 in *;
  change (bits_of UInt64) with 64 in *;
  change (2 ^ (32 - 1)) with 2147483648 in *;
  change (2 ^ 32) with 4294967296 in *;
  change (2 ^ (64 - 1)) with 9223372036854775808 in *;
  change (2 ^ 64) with 18446744073709551616 in *.

(** A value of the type survives the trip through its bytes. *)
Lemma decode_encode (t : ctype) (z : Z) :
  in_range t z -> decode t (encode t z) = z.
Proof.
  intros H. unfold decode, encode. rewrite le_value_le_bytes.
  fold (bits_of t). unfold of_bits.
  destruct t; unfold in_range in H; cbn [is_signed andb] in H |- *; widths.
  - destruct (Z.ltb_spec z 0).
    + rewrite <- (Z.mod_add z 1) by lia. rewrite Z.mod_small by lia.
      destruct (Z.leb_spec 2147483648 (z + 1 * 4294967296)); lia.
    + rewrite Z.mod_small by lia.
      destruct (Z.leb_spec 2147483648 z); lia.
  - destruct (Z.ltb_spec z 0).
    + rewrite <- (Z.mod_add z 1) by lia. rewrite Z.mod_small by lia.
      destruct (Z.leb_spec 9223372036854775808 (z + 1 * 18446744073709551616));
        lia.
    + rewrite Z.mod_small by lia.
      destruct (Z.leb_spec 9223372036854775808 z); lia.
  - rewrite Z.mod_small by lia. reflexivity.
Qed.

(** Whatever the bytes, decoding yields a value of the type. *)
Lemma decode_in_range (t : ctype) (bs : list byte) :
  length bs = size_of t -> in_range t (decode t bs).
Proof.
  intros L. pose proof (le_value_range bs) as R. rewrite L in R.
  fold (bits_of t) in R. unfold decode, of_bits, in_range.
  destruct t; cbn [is_signed andb] in R |- *; widths.
  - destruct (Z.leb_spec 2147483648 (le_value bs)); lia.
  - destruct (Z.leb_spec 9223372036854775808 (le_value bs)); lia.
  - lia.
Qed.

(** ** Reading what is in the buffer *)

Lemma remaining_advance (s : istream) (bs rest : list byte) :
  remaining s = bs ++ rest -> remaining (advance s (length bs)) = rest.
Proof.
  unfold remaining, advance. cbn [in_buf in_pos]. intros H.
  rewrite Nat.add_comm, <- skipn_skipn, H.
  rewrite skipn_app, skipn_all, Nat.sub_diag. reflexivity.
Qed.

Lemma in_good_advance (s : istream) (n : nat) : in_good (advance s n) = true.
Proof. reflexivity. Qed.

Lemma advance_advance (s : istream) (n m : nat) :
  advance (advance s n) m = advance s (n + m).
Proof. unfold advance. cbn. f_equal. lia. Qed.

Lemma read_exact (s : istream) (bs rest : list byte) :
  in_good s = true -> remaining s = bs ++ rest ->
  read s (length bs) = (bs, advance s (length bs)).
Proof.
  intros G R. unfold read. rewrite G, R.
  rewrite length_app.
  destruct (Nat.leb_spec (length bs) (length bs + length rest)); [|lia].
  rewrite firstn_app, firstn_all, Nat.sub_diag. cbn [firstn].
  now rewrite app_nil_r.
Qed.

Lemma ReadType_int_exact (t : ctype) (s : istream) (v cur : Z)
    (rest : list byte) :
  in_good s = true -> remaining s = encode t v ++ rest -> in_range t v ->
  ReadType_int t s cur = (v, advance s (size_of t)).
Proof.
  intros G R V. unfold ReadType_int.
  rewrite <- (length_encode t v).
  rewrite (read_exact s _ rest G R).
  rewrite length_encode, <- (length_encode t cur), skipn_all, app_nil_r.
  now rewrite decode_encode, length_encode.
Qed.

Lemma length_list_byte_of_string (s : string) :
  length (list_byte_of_string s) = String.length s.
Proof.
  induction s as [|c s IH]; [reflexivity|].
  cbn. f_equal. exact IH.
Qed.

Lemma in_range_string_length (s : string) :
  Z.of_nat (String.length s) < 2 ^ 31 ->
  in_range Int32 (Z.of_nat (String.length s)).
Proof. unfold in_range. cbn [is_signed]. widths. lia. Qed.

Lemma ReadType_string_exact (s : istream) (str : string) (rest : list byte) :
  in_good s = true -> remaining s = wire_string str ++ rest ->
  Z.of_nat (String.length str) < 2 ^ 31 ->
  ReadType_string s = (str, advance s (length (wire_string str))).
Proof.
  intros G R L. unfold wire_string in *. rewrite <- app_assoc in R.
  unfold ReadType_string.
  rewrite (ReadType_int_exact Int32 s _ 0 _ G R (in_range_string_length _ L)).
  rewrite length_app, length_encode, length_list_byte_of_string.
  apply remaining_advance in R. rewrite length_encode in R.
  destruct (Z.leb_spec (Z.of_nat (String.length str)) 0) as [Hz|Hz].
  - assert (E : String.length str = 0%nat) by lia.
    rewrite E, Nat.add_0_r. destruct str; [reflexivity|discriminate].
  - rewrite Nat2Z.id, <- length_list_byte_of_string.
    rewrite (read_exact (advance s (size_of Int32)) _ rest eq_refl R).
    now rewrite string_of_list_byte_of_string, advance_advance.
Qed.

(** ** Writing to a sink with room *)

Lemma write_bad (s : ostream) (bs : list byte) :
  out_bad s = true -> write s bs = s.
Proof. intros B. unfold write. now rewrite B. Qed.

Lemma WriteType_string_room (pre : list byte) (str : string) :
  Z.of_nat (String.length str) < 2 ^ 31 ->
  WriteType_string (mk_ostream pre None false) str
  = mk_ostream (pre ++ wire_string str) None false.
Proof.
  intros L. unfold WriteType_string, wire_string.
  rewrite decode_encode by now apply in_range_string_length.
  rewrite Nat2Z.id, <- length_list_byte_of_string, firstn_all.
  unfold write. cbn. now rewrite <- app_assoc.
Qed.

Lemma Write_room (h : FstHeader) (pre : list byte) (source : string) :
  header_wf h ->
  Write h (mk_ostream pre None false) source
  = (true, mk_ostream (pre ++ header_bytes h) None false).
Proof.
  intros [L1 L2 _ _ _ _ _ _]. unfold Write, header_bytes, WriteType_int.
  cbn [write out_bad out_room out_buf].
  rewrite !WriteType_string_room by assumption.
  cbn [write out_bad out_room out_buf].
  now rewrite <- !app_assoc.
Qed.

(** ** Reading a header that is in the buffer *)

Lemma seekg_back (s : istream) (n : nat) :
  in_good s = true -> in_seekable s = true ->
  (in_pos s <= length (in_buf s))%nat ->
  seekg (advance s n) (Z.of_nat (in_pos s)) = s.
Proof.
  intros G K L. unfold seekg, advance. cbn [in_buf in_pos in_fail in_seekable].
  rewrite K.
  destruct (Z.leb_spec 0 (Z.of_nat (in_pos s))); [|lia].
  destruct (Z.leb_spec (Z.of_nat (in_pos s)) (Z.of_nat (length (in_buf s))));
    [|lia].
  cbn [andb]. rewrite Nat2Z.id.
  destruct s as [b p f e k]. unfold in_good in G. cbn in G, K |- *.
  destruct f, e; try discriminate. now rewrite K.
Qed.

Lemma remaining_nonempty_pos (s : istream) (b : byte) (rest : list byte) :
  remaining s = b :: rest -> (in_pos s <= length (in_buf s))%nat.
Proof.
  unfold remaining. intros H.
  destruct (Nat.le_gt_cases (in_pos s) (length (in_buf s))) as [|G]; [easy|].
  rewrite skipn_all2 in H by lia. discriminate.
Qed.

Lemma kFstMagicNumber_in_range : in_range Int32 kFstMagicNumber.
Proof. unfold in_range, kFstMagicNumber. cbn [is_signed]. widths. lia. Qed.

Lemma read_fields_exact (h h0 : FstHeader) (s : istream) (rest : list byte) :
  header_wf h -> in_good s = true ->
  remaining s
  = wire_string (fsttype_ h) ++ wire_string (arctype_ h)
    ++ encode Int32 (version_ h) ++ encode Int32 (flags_ h)
    ++ encode UInt64 (properties_ h) ++ encode Int64 (start_ h)
    ++ encode Int64 (numstates_ h) ++ encode Int64 (numarcs_ h) ++ rest ->
  read_fields h0 s
  = (h, advance s (length (wire_string (fsttype_ h))
                   + length (wire_string (arctype_ h)) + 40)).
Proof.
  intros [L1 L2 V1 V2 V3 V4 V5 V6] G R. destruct h as [ft at_ ve fl pr st ns na].
  cbn [fsttype_ arctype_ version_ flags_ properties_ start_ numstates_
       numarcs_] in *.
  unfold read_fields.
  rewrite (ReadType_string_exact s ft _ G R L1).
  apply remaining_advance in R.
  rewrite (ReadType_string_exact _ at_ _ (in_good_advance _ _) R L2).
  apply remaining_advance in R.
  rewrite (ReadType_int_exact Int32 _ ve _ _ (in_good_advance _ _) R V1).
  apply remaining_advance in R. rewrite length_encode in R.
  rewrite (ReadType_int_exact Int32 _ fl _ _ (in_good_advance _ _) R V2).
  apply remaining_advance in R. rewrite length_encode in R.
  rewrite (ReadType_int_exact UInt64 _ pr _ _ (in_good_advance _ _) R V3).
  apply remaining_advance in R. rewrite length_encode in R.
  rewrite (ReadType_int_exact Int64 _ st _ _ (in_good_advance _ _) R V4).
  apply remaining_advance in R. rewrite length_encode in R.
  rewrite (ReadType_int_exact Int64 _ ns _ _ (in_good_advance _ _) R V5).
  apply remaining_advance in R. rewrite length_encode in R.
  rewrite (ReadType_int_exact Int64 _ na _ _ (in_good_advance _ _) R V6).
  rewrite !advance_advance. cbn [size_of]. do 2 f_equal. lia.
Qed.

Lemma length_header_bytes (h : FstHeader) :
  length (header_bytes h)
  = (4 + (length (wire_string (fsttype_ h))
          + length (wire_string (arctype_ h)) + 40))%nat.
Proof.
  unfold header_bytes. rewrite !length_app, !length_encode. cbn [size_of]. lia.
Qed.

(** A good stream that holds the bytes of [h] next yields [h]; it is left
    behind them, or where it was when [rewind] is set. *)
Lemma Read_header_bytes (h h0 : FstHeader) (s : istream) (source : string)
    (rewind : bool) (rest : list byte) :
  header_wf h -> in_good s = true ->
  (rewind = true -> in_seekable s = true) ->
  remaining s = header_bytes h ++ rest ->
  Read h0 s source rewind
  = mk_outcome true h
      (if rewind then s else advance s (length (header_bytes h))) [].
Proof.
  intros W G K R.
  assert (P : (in_pos s <= length (in_buf s))%nat).
  { unfold header_bytes in R. cbn in R.
    eapply remaining_nonempty_pos. exact R. }
  rewrite length_header_bytes.
  unfold header_bytes in R. rewrite <- !app_assoc in R.
  assert (E : Read h0 s source rewind
              = let strm := advance s 4 in
                let '(h, strm) := read_fields h0 strm in
                if in_fail strm
                then mk_outcome false h strm
                       [(ERROR, ("FstHeader::Read: Read failed: "
                                 ++ source)%string)]
                else
                  let strm :=
                    if rewind then seekg strm (Z.of_nat (in_pos s)) else strm
                  in mk_outcome true h strm []).
  { unfold Read, tellg. rewrite G.
    destruct rewind; [rewrite (K eq_refl)|];
      rewrite (ReadType_int_exact Int32 s _ 0 _ G R kFstMagicNumber_in_range);
      rewrite Z.eqb_refl; reflexivity. }
  rewrite E. clear E. cbv zeta.
  apply remaining_advance in R. rewrite length_encode in R.
  cbn [size_of] in R.
  rewrite (read_fields_exact h h0 _ rest W (in_good_advance _ _) R).
  rewrite advance_advance. cbn [in_fail advance].
  destruct rewind; [|reflexivity].
  now rewrite (seekg_back s _ G (K eq_refl) P).
Qed.

(** ** What reading leaves of a stream *)

Lemma reads_from_trans (s1 s2 s3 : istream) :
  reads_from s1 s2 -> reads_from s2 s3 -> reads_from s1 s3.
Proof.
  intros [B1 S1 P1 K1] [B2 S2 P2 K2]. split.
  - congruence.
  - congruence.
  - lia.
  - intros F. destruct (K2 F) as (G2 & E3 & L3).
    assert (F2 : in_fail s2 = false).
    { unfold in_good in G2. destruct (in_fail s2); [discriminate|reflexivity]. }
    destruct (K1 F2) as (G1 & _ & _).
    rewrite B1 in L3. auto.
Qed.

Lemma read_reads_from (s : istream) (n : nat) :
  (0 < n)%nat -> reads_from s (snd (read s n)).
Proof.
  intros N. unfold read. destruct (in_good s) eqn:G.
  - destruct (Nat.leb_spec n (length (remaining s))) as [L|L]; cbn [snd].
    + unfold remaining in L. rewrite length_skipn in L.
      split; cbn; [reflexivity|reflexivity|lia|].
      intros _. repeat split; [exact G|lia].
    + split; cbn; [reflexivity|reflexivity|lia|discriminate].
  - split; cbn; [reflexivity|reflexivity|lia|discriminate].
Qed.

Lemma ReadType_int_reads_from (t : ctype) (s : istream) (cur : Z) :
  reads_from s (snd (ReadType_int t s cur)).
Proof.
  unfold ReadType_int.
  pose proof (read_reads_from s (size_of t)) as H.
  destruct (read s (size_of t)) as [bs s']. cbn [snd] in *.
  apply H. destruct t; cbn; lia.
Qed.

Lemma ReadType_string_reads_from (s : istream) :
  reads_from s (snd (ReadType_string s)).
Proof.
  unfold ReadType_string.
  pose proof (ReadType_int_reads_from Int32 s 0) as H.
  destruct (ReadType_int Int32 s 0) as [ns s1]. cbn [snd] in H.
  destruct (Z.leb_spec ns 0) as [Hz|Hz]; [exact H|].
  pose proof (read_reads_from s1 (Z.to_nat ns)) as H1.
  destruct (read s1 (Z.to_nat ns)) as [bs s2]. cbn [snd] in *.
  eapply reads_from_trans; [exact H|]. apply H1. lia.
Qed.

Lemma read_fields_reads_from (h : FstHeader) (s : istream) :
  reads_from s (snd (read_fields h s)).
Proof.
  unfold read_fields.
  pose proof (ReadType_string_reads_from s) as H1.
  destruct (ReadType_string s) as [x1 s1]. cbn [snd] in H1.
  pose proof (ReadType_string_reads_from s1) as H2.
  destruct (ReadType_string s1) as [x2 s2]. cbn [snd] in H2.
  pose proof (ReadType_int_reads_from Int32 s2 (version_ h)) as H3.
  destruct (ReadType_int Int32 s2 (version_ h)) as [x3 s3]. cbn [snd] in H3.
  pose proof (ReadType_int_reads_from Int32 s3 (flags_ h)) as H4.
  destruct (ReadType_int Int32 s3 (flags_ h)) as [x4 s4]. cbn [snd] in H4.
  pose proof (ReadType_int_reads_from UInt64 s4 (properties_ h)) as H5.
  destruct (ReadType_int UInt64 s4 (properties_ h)) as [x5 s5].
  cbn [snd] in H5.
  pose proof (ReadType_int_reads_from Int64 s5 (start_ h)) as H6.
  destruct (ReadType_int Int64 s5 (start_ h)) as [x6 s6]. cbn [snd] in H6.
  pose proof (ReadType_int_reads_from Int64 s6 (numstates_ h)) as H7.
  destruct (ReadType_int Int64 s6 (numstates_ h)) as [x7 s7]. cbn [snd] in H7.
  pose proof (ReadType_int_reads_from Int64 s7 (numarcs_ h)) as H8.
  destruct (ReadType_int Int64 s7 (numarcs_ h)) as [x8 s8]. cbn [snd] in *.
  do 7 (eapply reads_from_trans; [eassumption|]). assumption.
Qed.

(** A read that finds the stream failed leaves it failed. *)
Lemma reads_from_keeps_fail (s s' : istream) :
  reads_from s s' -> in_fail s = true -> in_fail s' = true.
Proof.
  intros [_ _ _ K] F. destruct (in_fail s') eqn:F'; [reflexivity|].
  destruct (K eq_refl) as (G & _). unfold in_good in G. rewrite F in G.
  discriminate.
Qed.

(** ** The magic number *)

Lemma tellg_then_ReadType_int (t : ctype) (s : istream) (cur : Z) :
  ReadType_int t (snd (tellg s)) cur = ReadType_int t s cur.
Proof.
  unfold tellg. destruct (in_good s) eqn:G; [reflexivity|].
  cbn [snd]. unfold ReadType_int, read. rewrite G.
  assert (G' : in_good (set_fail s) = false) by reflexivity.
  rewrite G'. reflexivity.
Qed.

(** A short read of the magic number never yields the sentinel. *)
Lemma short_magic (bs : list byte) :
  (length bs < 4)%nat ->
  decode Int32 (bs ++ skipn (length bs) (encode Int32 0)) <> kFstMagicNumber.
Proof.
  intros L. destruct bs as [|a [|b [|c [|d r]]]]; cbn in L; try lia;
    unfold decode, of_bits; cbn [is_signed andb]; widths;
    cbn [length skipn encode size_of le_bytes app le_value];
    change (Z_of_byte (byte_of_Z 0)) with 0;
    change (Z_of_byte (byte_of_Z (Z.shiftr 0 8))) with 0;
    change (Z_of_byte (byte_of_Z (Z.shiftr (Z.shiftr 0 8) 8))) with 0;
    change (Z_of_byte (byte_of_Z (Z.shiftr (Z.shiftr (Z.shiftr 0 8) 8) 8)))
      with 0;
    try pose proof (Z_of_byte_range a); try pose proof (Z_of_byte_range b);
    try pose proof (Z_of_byte_range c); unfold kFstMagicNumber;
    match goal with
    | |- (if ?x <=? ?y then _ else _) <> _ => destruct (Z.leb_spec x y); lia
    end.
Qed.

(** The sentinel is only ever got from a good stream with four bytes
    left, which the read then leaves behind. *)
Lemma magic_read_match (s : istream) :
  magic_read s = kFstMagicNumber ->
  in_good s = true /\ after_magic s = advance s 4
  /\ (in_pos s + 4 <= length (in_buf s))%nat.
Proof.
  unfold magic_read, after_magic, ReadType_int, read.
  destruct (in_good s) eqn:G.
  - cbn [size_of].
    destruct (Nat.leb_spec 4 (length (remaining s))) as [L|L]; cbn [fst snd].
    + intros _. unfold remaining in L. rewrite length_skipn in L.
      repeat split. lia.
    + intros H. now apply short_magic in H.
  - cbn [fst]. intros H. now apply (short_magic []) in H; [|cbn; lia].
Qed.

(** [FstHeader::Read] in terms of the magic number read and of the stream
    after it. *)
Lemma Read_unfold (h : FstHeader) (s : istream) (source : string)
    (rewind : bool) :
  Read h s source rewind
  = let pos := if rewind then fst (tellg s) else 0 in
    if negb (magic_read s =? kFstMagicNumber) then
      mk_outcome false h
        (if rewind then seekg (after_magic s) pos else after_magic s)
        [(ERROR, ("FstHeader::Read: Bad FST header: " ++ source
                  ++ ". Magic number not matched. Got: "
                  ++ show_int (magic_read s))%string)]
    else
      let hs := read_fields h (after_magic s) in
      if in_fail (snd hs) then
        mk_outcome false (fst hs) (snd hs)
          [(ERROR, ("FstHeader::Read: Read failed: " ++ source)%string)]
      else
        mk_outcome true (fst hs)
          (if rewind then seekg (snd hs) pos else snd hs) [].
Proof.
  unfold Read, magic_read, after_magic.
  destruct rewind.
  - destruct (tellg s) as [pos s1] eqn:T.
    replace s1 with (snd (tellg s)) by now rewrite T.
    rewrite tellg_then_ReadType_int. cbn [fst].
    destruct (ReadType_int Int32 s 0) as [m s2]. cbn [fst snd].
    destruct (negb (m =? kFstMagicNumber)); [reflexivity|].
    destruct (read_fields h s2) as [h' s3]. reflexivity.
  - destruct (ReadType_int Int32 s 0) as [m s2]. cbn [fst snd].
    destruct (negb (m =? kFstMagicNumber)); [reflexivity|].
    destruct (read_fields h s2) as [h' s3]. reflexivity.
Qed.

Lemma seekg_to (s s' : istream) :
  in_good s = true -> in_seekable s = true ->
  (in_pos s <= length (in_buf s))%nat ->
  in_buf s' = in_buf s -> in_seekable s' = in_seekable s ->
  in_fail s' = false ->
  seekg s' (Z.of_nat (in_pos s)) = s.
Proof.
  intros G K L B S F. unfold seekg.
  cbn [in_buf in_pos in_fail in_seekable]. rewrite F, B, S, K.
  destruct (Z.leb_spec 0 (Z.of_nat (in_pos s))); [|lia].
  destruct (Z.leb_spec (Z.of_nat (in_pos s)) (Z.of_nat (length (in_buf s))));
    [|lia].
  cbn [andb]. rewrite Nat2Z.id.
  destruct s as [b p f e k]. unfold in_good in G. cbn in G, K |- *.
  destruct f, e; try discriminate. now rewrite K.
Qed.

Lemma after_magic_reads_from (s : istream) : reads_from s (after_magic s).
Proof. apply ReadType_int_reads_from. Qed.

(** On a stream that can seek, seeking back to where [tellg] said the
    stream was undoes the reads that did not fail. *)
Lemma rewind_after_reads (s s' : istream) :
  in_seekable s = true ->
  reads_from s s' -> in_fail s' = false -> seekg s' (fst (tellg s)) = s.
Proof.
  intros S [B S' P K] F. destruct (K F) as (G & _ & L).
  unfold tellg. rewrite G, S. cbn [fst].
  apply seekg_to; [assumption|assumption|lia|assumption|assumption|assumption].
Qed.

Lemma seekg_keeps_fail (s : istream) (pos : Z) :
  in_fail s = true -> in_fail (seekg s pos) = true.
Proof. intros F. unfold seekg. cbn [in_fail]. now rewrite F. Qed.

(** A stream that cannot seek is failed by any [seekg]. *)
Lemma seekg_not_seekable (s : istream) (pos : Z) :
  in_seekable s = false -> in_fail (seekg s pos) = true.
Proof.
  intros S. unfold seekg. cbn [in_fail in_seekable]. rewrite S.
  now destruct (in_fail s).
Qed.

(** After reads from [s], seeking back to where [tellg] said [s] was
    leaves the stream failed or as [s] was. *)
Lemma rewind_or_failed (s s' : istream) :
  reads_from s s' ->
  in_fail (seekg s' (fst (tellg s))) = true \/ seekg s' (fst (tellg s)) = s.
Proof.
  intros H. destruct (in_fail s') eqn:F.
  - left. now apply seekg_keeps_fail.
  - destruct (in_seekable s) eqn:S.
    + right. now apply rewind_after_reads.
    + left. apply seekg_not_seekable. now rewrite (rf_seek _ _ H).
Qed.

(** X19. With [rewind] set, every return of [FstHeader::Read] leaves the
    stream either failed or as it was at entry: the stream is repositioned
    whenever [seekg] can move it. *)
Lemma Read_rewound_or_failed (h : FstHeader) (s : istream) (source : string) :
  let o := Read h s source true in
  in_fail (r_strm o) = true \/ r_strm o = s.
Proof.
  cbv zeta. rewrite Read_unfold. cbv zeta.
  destruct (negb (magic_read s =? kFstMagicNumber)); cbn [r_strm].
  - apply rewind_or_failed, after_magic_reads_from.
  - destruct (in_fail (snd (read_fields h (after_magic s)))) eqn:F;
      cbn [r_strm]; [left; exact F|].
    apply rewind_or_failed.
    eapply reads_from_trans;
      [apply after_magic_reads_from|apply read_fields_reads_from].
Qed.

(** * FstHeader: the statements *)

(** C1. Header round trip: for every header record [h] (its fields values
    of their C++ types), writing [h] with [FstHeader::Write] and reading
    the bytes back with [FstHeader::Read] succeeds and yields a header
    equal to [h] in all eight fields, whatever the header object read into
    held, whatever precedes or follows the header in the stream, and with
    or without [rewind]. *)
Theorem header_round_trip (h h0 : FstHeader) (pre suf : list byte)
    (source source' : string) (rewind : bool) :
  header_wf h ->
  let written := Write h (mk_ostream pre None false) source in
  let back :=
    Read h0 (mk_istream (out_buf (snd written) ++ suf) (length pre) false false)
      source' rewind in
  fst written = true /\ r_ok back = true /\ r_header back = h
  /\ r_log back = [].
Proof.
  intros W. rewrite (Write_room h pre source W). cbn [fst snd out_buf].
  set (s := mk_istream ((pre ++ header_bytes h) ++ suf) (length pre) false false).
  assert (R : remaining s = header_bytes h ++ suf).
  { unfold remaining, s, mk_istream. cbn [in_buf in_pos].
    rewrite <- app_assoc, skipn_app, skipn_all, Nat.sub_diag. reflexivity. }
  rewrite (Read_header_bytes h h0 s source' rewind suf W eq_refl
             (fun _ => eq_refl) R).
  repeat split.
Qed.

Lemma sample_header_wf : header_wf sample_header.
Proof. split; vm_compute; repeat split; congruence. Qed.

Lemma header_round_trip_witness :
  header_wf sample_header
  /\ r_header
       (Read blank_header
          (mk_istream
             (out_buf (snd (Write sample_header (mk_ostream [] None false) ""))
              ++ [])
             0 false false)
          "in.fst" true)
     = sample_header.
Proof.
  split; [exact sample_header_wf|].
  apply (header_round_trip sample_header blank_header [] [] "" "in.fst" true).
  exact sample_header_wf.
Defined.

(** C2, as amended. For every stream whose magic number matches but where
    a read of the remaining header fields fails, [FstHeader::Read] logs
    the read failure with the source label and returns failure; the stream
    is left as the failed reads left it, in failed state and at least four
    bytes past its position at entry, whether or not [rewind] was
    requested. *)
Theorem Read_failed_leaves_stream (h : FstHeader) (s : istream)
    (source : string) (rewind : bool) :
  magic_read s = kFstMagicNumber ->
  in_fail (snd (read_fields h (after_magic s))) = true ->
  let o := Read h s source rewind in
  r_ok o = false
  /\ r_log o = [(ERROR, ("FstHeader::Read: Read failed: " ++ source)%string)]
  /\ r_strm o = snd (read_fields h (after_magic s))
  /\ in_fail (r_strm o) = true
  /\ (in_pos s + 4 <= in_pos (r_strm o))%nat.
Proof.
  intros M F. cbv zeta. rewrite Read_unfold. cbv zeta.
  rewrite M, Z.eqb_refl. cbn [negb]. rewrite F. cbn [r_ok r_log r_strm].
  repeat split; try assumption.
  destruct (magic_read_match s M) as (_ & A & _).
  pose proof (rf_pos _ _ (read_fields_reads_from h (after_magic s))) as P.
  rewrite A in P at 1. cbn [advance in_pos] in P. exact P.
Qed.

Lemma Read_failed_leaves_stream_witness :
  magic_read truncated_stream = kFstMagicNumber
  /\ r_ok (Read blank_header truncated_stream "in.fst" true) = false
  /\ in_fail (r_strm (Read blank_header truncated_stream "in.fst" true))
     = true.
Proof.
  split; [reflexivity|].
  pose proof (Read_failed_leaves_stream blank_header truncated_stream
                "in.fst" true eq_refl eq_refl) as H.
  cbv zeta in H. destruct H as (H1 & _ & _ & H4 & _). split; assumption.
Defined.

(** C2, as stated, fails: on a file that ends right after a valid magic
    number, read with [rewind] set, the field reads fail and [Read]
    returns failure, yet the stream is not back at its position at
    entry. *)
Lemma Read_failed_not_rewound :
  let s := truncated_stream in
  let o := Read blank_header s "in.fst" true in
  magic_read s = kFstMagicNumber
  /\ in_fail (snd (read_fields blank_header (after_magic s))) = true
  /\ r_ok o = false
  /\ in_pos s = 0%nat /\ in_pos (r_strm o) = 4%nat
  /\ fst (tellg s) = 0 /\ fst (tellg (r_strm o)) = -1
  /\ in_pos (r_strm o) <> in_pos s
  /\ fst (tellg (r_strm o)) <> fst (tellg s).
Proof. vm_compute. repeat split; congruence. Qed.

(** C4, as amended. For every stream and every call of [FstHeader::Read]
    with [rewind] requested: if the magic number read does not match the
    sentinel, [Read] signals failure to the caller, and, provided the
    stream can seek, was good and held the four bytes of a magic number,
    the stream is as it was at entry; and if [Read] succeeds on a stream
    that can seek, the stream is as it was at entry. *)
Theorem Read_rewind_restores (h : FstHeader) (s : istream) (source : string) :
  let o := Read h s source true in
  (magic_read s <> kFstMagicNumber ->
   r_ok o = false
   /\ (in_seekable s = true -> in_good s = true ->
       (4 <= length (remaining s))%nat -> r_strm o = s))
  /\ (r_ok o = true -> in_seekable s = true -> r_strm o = s).
Proof.
  cbv zeta. rewrite Read_unfold. cbv zeta. split.
  - intros M. apply Z.eqb_neq in M. rewrite M. cbn [negb r_ok r_strm].
    split; [reflexivity|]. intros S G L.
    apply rewind_after_reads; [exact S|apply after_magic_reads_from|].
    unfold after_magic, ReadType_int, read. rewrite G. cbn [size_of].
    destruct (Nat.leb_spec 4 (length (remaining s))); [reflexivity|lia].
  - destruct (negb (magic_read s =? kFstMagicNumber)); [discriminate|].
    destruct (in_fail (snd (read_fields h (after_magic s)))) eqn:F;
      [discriminate|].
    intros _ S. cbn [r_strm].
    apply rewind_after_reads; [exact S| |exact F].
    eapply reads_from_trans;
      [apply after_magic_reads_from|apply read_fields_reads_from].
Qed.

Lemma Read_rewind_restores_witness :
  (magic_read foreign_stream <> kFstMagicNumber
   /\ r_ok (Read blank_header foreign_stream "in.fst" true) = false
   /\ r_strm (Read blank_header foreign_stream "in.fst" true) = foreign_stream)
  /\ r_strm
       (Read blank_header (stream_of (header_bytes sample_header)) "in.fst"
          true)
     = stream_of (header_bytes sample_header).
Proof.
  split.
  - assert (M : magic_read foreign_stream <> kFstMagicNumber)
      by (vm_compute; congruence).
    destruct (Read_rewind_restores blank_header foreign_stream "in.fst")
      as [H _].
    destruct (H M) as (H1 & H2).
    split; [exact M|]. split; [exact H1|].
    apply H2; [reflexivity|reflexivity|vm_compute; lia].
  - destruct (Read_rewind_restores blank_header
                (stream_of (header_bytes sample_header)) "in.fst") as [_ H].
    apply H; reflexivity.
Defined.

(** C4, as stated, fails: on a two-byte file, read with [rewind] set, the
    magic number read does not match and [Read] returns failure, but the
    read has failed the stream, which [seekg] then does not move: the
    stream is not back at its position at entry. *)
Lemma Read_short_not_rewound :
  let s := short_stream in
  let o := Read blank_header s "in.fst" true in
  magic_read s <> kFstMagicNumber
  /\ r_ok o = false
  /\ in_pos s = 0%nat /\ in_pos (r_strm o) = 2%nat
  /\ fst (tellg s) = 0 /\ fst (tellg (r_strm o)) = -1
  /\ in_pos (r_strm o) <> in_pos s
  /\ fst (tellg (r_strm o)) <> fst (tellg s).
Proof. vm_compute. repeat split; congruence. Qed.

(** C9. Atomicity on an invalid magic number: for every stream whose
    leading magic number, as read, does not match the sentinel,
    [FstHeader::Read] returns failure and leaves the header object, hence
    all its eight fields, as it was before the call. *)
Theorem Read_bad_magic_keeps_header (h : FstHeader) (s : istream)
    (source : string) (rewind : bool) :
  magic_read s <> kFstMagicNumber ->
  let o := Read h s source rewind in
  r_ok o = false /\ r_header o = h
  /\ r_log o
     = [(ERROR, ("FstHeader::Read: Bad FST header: " ++ source
                 ++ ". Magic number not matched. Got: "
                 ++ show_int (magic_read s))%string)].
Proof.
  intros M. cbv zeta. rewrite Read_unfold. cbv zeta.
  apply Z.eqb_neq in M. rewrite M. repeat split.
Qed.

Lemma Read_bad_magic_keeps_header_witness :
  magic_read foreign_stream <> kFstMagicNumber
  /\ r_header (Read sample_header foreign_stream "in.fst" false)
     = sample_header.
Proof.
  assert (M : magic_read foreign_stream <> kFstMagicNumber)
    by (vm_compute; congruence).
  split; [exact M|].
  apply (Read_bad_magic_keeps_header sample_header foreign_stream "in.fst"
           false M).
Defined.

(** C5, as amended. [FstHeader::Write] writes the magic number first and
    then the eight header fields in the order in which [Read] reads them;
    its boolean result is success always, also when the stream faults: a
    fault shows in the state of the stream only, and a stream that is
    already bad is left as it is. *)
Theorem Write_result_and_layout (h : FstHeader) (strm : ostream)
    (source : string) (pre : list byte) :
  fst (Write h strm source) = true
  /\ (out_bad strm = true -> snd (Write h strm source) = strm)
  /\ (header_wf h ->
      snd (Write h (mk_ostream pre None false) source)
      = mk_ostream
          (pre ++ encode Int32 kFstMagicNumber
           ++ wire_string (fsttype_ h) ++ wire_string (arctype_ h)
           ++ encode Int32 (version_ h) ++ encode Int32 (flags_ h)
           ++ encode UInt64 (properties_ h) ++ encode Int64 (start_ h)
           ++ encode Int64 (numstates_ h) ++ encode Int64 (numarcs_ h))
          None false).
Proof.
  split; [reflexivity|]. split.
  - intros B. unfold Write, WriteType_int, WriteType_string.
    cbn [snd]. now rewrite !(write_bad strm _ B).
  - intros W. now rewrite Write_room.
Qed.

Lemma Write_result_and_layout_witness :
  header_wf sample_header
  /\ firstn 4
       (out_buf (snd (Write sample_header (mk_ostream [] None false) "")))
     = [xd6; xfd; xb2; x7e].
Proof.
  split; [exact sample_header_wf|].
  destruct (Write_result_and_layout sample_header small_sink "" [])
    as (_ & _ & H).
  rewrite (H sample_header_wf). reflexivity.
Defined.

(** C5, as stated, fails: on a sink that runs out of room the stream
    faults while the header is written, yet [Write] returns success. *)
Lemma Write_true_on_fault :
  let r := Write sample_header small_sink "out.fst" in
  out_bad small_sink = false
  /\ out_bad (snd r) = true
  /\ length (out_buf (snd r)) = 10%nat
  /\ fst r = true /\ fst r <> false.
Proof. vm_compute. repeat split. congruence. Qed.

(** * FstReadOptions: the statement *)

(** C7. [ReadMode] maps ["read"] to [READ] and ["map"] to [MAP] without
    logging, and every other string, ["bogus"] for one, to [READ] after
    logging one error that names the string; being a total function, it
    yields a mode for every string. *)
Theorem ReadMode_cases :
  ReadMode "read" = (READ, [])
  /\ ReadMode "map" = (MAP, [])
  /\ (forall mode : string,
        mode <> "read" -> mode <> "map" ->
        ReadMode mode
        = (READ, [(ERROR, ("Unknown file read mode " ++ mode)%string)])).
Proof.
  split; [reflexivity|]. split; [reflexivity|].
  intros mode R M. unfold ReadMode.
  apply String.eqb_neq in R, M. now rewrite R, M.
Qed.

Lemma ReadMode_cases_witness :
  ReadMode "bogus" = (READ, [(ERROR, "Unknown file read mode bogus")]).
Proof.
  destruct ReadMode_cases as (_ & _ & H).
  apply (H "bogus"); intros E; discriminate E.
Defined.

(** * The tools: how a run unfolds *)

Section ToolRuns.
Context {Fst : Type} (lib : script_lib Fst).
Implicit Types (w : world Fst) (argv : list string) (f g : Fst).

Lemma fresh_not_live w : heap w !! fresh (dom (heap w)) = None.
Proof. apply not_elem_of_dom, is_fresh. Qed.

Lemma fresh_twice_ne w f :
  let p := fresh (dom (heap w)) in
  fresh (dom (<[p := f]> (heap w))) <> p.
Proof.
  intros p E.
  pose proof (is_fresh (dom (<[p := f]> (heap w)))) as N.
  rewrite E, dom_insert_L in N. set_solver.
Qed.

Lemma FstClass_Read_None name w :
  lib_read lib name = None ->
  FstClass_Read lib name w
  = Some (None, mk_world (heap w) (trace w ++ [EvRead name None])).
Proof. intros R. unfold FstClass_Read. now rewrite R. Qed.

Lemma FstClass_Read_Some name f w :
  lib_read lib name = Some f ->
  let p := fresh (dom (heap w)) in
  FstClass_Read lib name w
  = Some (Some p,
          mk_world (<[p := f]> (heap w)) (trace w ++ [EvRead name (Some p)])).
Proof. intros R. unfold FstClass_Read. now rewrite R. Qed.

Lemma deref_live p f w : heap w !! p = Some f -> deref p w = Some (f, w).
Proof. intros L. unfold deref. now rewrite L. Qed.

(** The convert tool, case by case. *)

Lemma convert_run_usage flag argv w :
  3 < argc argv ->
  fstconvert_main lib flag argv w
  = Some (1, mk_world (heap w)
               (trace w ++ [EvShowUsage
                              (usage_of "Converts an FST to another type."
                                 argv)])).
Proof.
  intros A. unfold fstconvert_main.
  destruct (Z.ltb_spec 3 (argc argv)); [reflexivity|lia].
Qed.

Lemma convert_run_read_fails flag argv w :
  argc argv <= 3 -> lib_read lib (in_name_of argv) = None ->
  fstconvert_main lib flag argv w
  = Some (1, mk_world (heap w)
               (trace w ++ [EvRead (in_name_of argv) None])).
Proof.
  intros A R. unfold fstconvert_main.
  destruct (Z.ltb_spec 3 (argc argv)); [lia|].
  cbv zeta. unfold bind at 1. now rewrite (FstClass_Read_None _ _ R).
Qed.

Lemma convert_run_same_type flag argv w f :
  argc argv <= 3 -> lib_read lib (in_name_of argv) = Some f ->
  lib_fst_type lib f = flag ->
  let p := fresh (dom (heap w)) in
  fstconvert_main lib flag argv w
  = Some (0, mk_world (<[p := f]> (heap w))
               (trace w ++ [EvRead (in_name_of argv) (Some p);
                            EvWrite p f (out_name_of argv)
                              (lib_write lib f (out_name_of argv))])).
Proof.
  intros A R T p. unfold fstconvert_main.
  destruct (Z.ltb_spec 3 (argc argv)); [lia|].
  cbv zeta. unfold bind at 1. rewrite (FstClass_Read_Some _ _ _ R).
  fold p. unfold bind, FstType, FstClass_Write, bind, ret, emit.
  rewrite (deref_live p f) by apply lookup_insert_eq.
  rewrite T, String.eqb_refl. cbn [negb heap trace].
  rewrite (deref_live p f) by apply lookup_insert_eq.
  cbn [heap trace]. now rewrite <- app_assoc.
Qed.

Lemma convert_run_convert_fails flag argv w f :
  argc argv <= 3 -> lib_read lib (in_name_of argv) = Some f ->
  lib_fst_type lib f <> flag -> lib_convert lib f flag = None ->
  let p := fresh (dom (heap w)) in
  fstconvert_main lib flag argv w
  = Some (1, mk_world (<[p := f]> (heap w))
               (trace w ++ [EvRead (in_name_of argv) (Some p);
                            EvConvert p flag None])).
Proof.
  intros A R T C p. unfold fstconvert_main.
  destruct (Z.ltb_spec 3 (argc argv)); [lia|].
  cbv zeta. unfold bind at 1. rewrite (FstClass_Read_Some _ _ _ R).
  fold p. unfold bind, FstType, Convert, bind, ret, emit.
  rewrite (deref_live p f) by apply lookup_insert_eq.
  apply String.eqb_neq in T. rewrite T. cbn [negb heap trace].
  rewrite (deref_live p f) by apply lookup_insert_eq.
  rewrite C. cbn [heap trace]. now rewrite <- app_assoc.
Qed.

Lemma convert_run_converts flag argv w f g :
  argc argv <= 3 -> lib_read lib (in_name_of argv) = Some f ->
  lib_fst_type lib f <> flag -> lib_convert lib f flag = Some g ->
  let p := fresh (dom (heap w)) in
  let q := fresh (dom (<[p := f]> (heap w))) in
  fstconvert_main lib flag argv w
  = Some (0, mk_world (<[q := g]> (<[p := f]> (heap w)))
               (trace w ++ [EvRead (in_name_of argv) (Some p);
                            EvConvert p flag (Some q);
                            EvWrite q g (out_name_of argv)
                              (lib_write lib g (out_name_of argv))])).
Proof.
  intros A R T C p q. unfold fstconvert_main.
  destruct (Z.ltb_spec 3 (argc argv)); [lia|].
  cbv zeta. unfold bind at 1. rewrite (FstClass_Read_Some _ _ _ R).
  fold p. unfold bind, FstType, Convert, FstClass_Write, bind, ret, emit, alloc.
  rewrite (deref_live p f) by apply lookup_insert_eq.
  apply String.eqb_neq in T. rewrite T. cbn [negb heap trace].
  rewrite (deref_live p f) by apply lookup_insert_eq.
  rewrite C. cbn [heap trace]. fold q.
  rewrite (deref_live q g) by apply lookup_insert_eq.
  cbn [heap trace]. now rewrite <- !app_assoc.
Qed.
End ToolRuns.

Section SortRuns.
Context {Fst : Type} (lib : script_lib Fst).
Implicit Types (w : world Fst) (argv : list string) (f g : Fst).

(** The sort tool, case by case. *)

Lemma sort_run_usage argv w :
  3 < argc argv ->
  fsttopsort_main lib argv w
  = Some (1, mk_world (heap w)
               (trace w ++ [EvShowUsage
                              (usage_of "Topologically sorts an FST."
                                 argv)])).
Proof.
  intros A. unfold fsttopsort_main.
  destruct (Z.ltb_spec 3 (argc argv)); [reflexivity|lia].
Qed.

Lemma sort_run_read_fails argv w :
  argc argv <= 3 -> lib_read lib (in_name_of argv) = None ->
  fsttopsort_main lib argv w
  = Some (1, mk_world (heap w)
               (trace w ++ [EvRead (in_name_of argv) None])).
Proof.
  intros A R. unfold fsttopsort_main.
  destruct (Z.ltb_spec 3 (argc argv)); [lia|].
  cbv zeta. unfold bind at 1. now rewrite (FstClass_Read_None _ _ _ R).
Qed.

Lemma sort_run_mutable argv w f :
  argc argv <= 3 -> lib_read lib (in_name_of argv) = Some f ->
  lib_is_mutable lib f = true ->
  let p := fresh (dom (heap w)) in
  let g := fst (lib_topsort lib f) in
  let acyclic := snd (lib_topsort lib f) in
  fsttopsort_main lib argv w
  = Some (0, mk_world (<[p := g]> (heap w))
               (trace w
                ++ [EvRead (in_name_of argv) (Some p); EvTopSort p acyclic]
                ++ (if acyclic then [] else [cyclic_warning argv])
                ++ [EvWrite p g (out_name_of argv)
                      (lib_write lib g (out_name_of argv))])).
Proof.
  intros A R M p g acyclic. unfold fsttopsort_main.
  destruct (Z.ltb_spec 3 (argc argv)); [lia|].
  cbv zeta. unfold bind at 1. rewrite (FstClass_Read_Some _ _ _ _ R).
  fold p. unfold bind, Properties_kMutable, TopSort, FstClass_Write, bind,
    ret, emit.
  rewrite (deref_live p f) by apply lookup_insert_eq.
  rewrite M. cbn [heap trace].
  rewrite (deref_live p f) by apply lookup_insert_eq.
  subst g acyclic. destruct (lib_topsort lib f) as [g a].
  cbn [heap trace fst snd]. rewrite insert_insert_eq.
  destruct a; cbn [negb heap trace];
    rewrite (deref_live p g) by apply lookup_insert_eq;
    cbn [heap trace]; now rewrite <- !app_assoc.
Qed.

Lemma sort_run_copy argv w f :
  argc argv <= 3 -> lib_read lib (in_name_of argv) = Some f ->
  lib_is_mutable lib f = false ->
  let p := fresh (dom (heap w)) in
  let q := fresh (dom (<[p := f]> (heap w))) in
  let g := fst (lib_topsort lib (lib_vector_copy lib f)) in
  let acyclic := snd (lib_topsort lib (lib_vector_copy lib f)) in
  fsttopsort_main lib argv w
  = Some (0, mk_world (<[q := g]> (heap w))
               (trace w
                ++ [EvRead (in_name_of argv) (Some p); EvNewVector p q;
                    EvDelete p; EvTopSort q acyclic]
                ++ (if acyclic then [] else [cyclic_warning argv])
                ++ [EvWrite q g (out_name_of argv)
                      (lib_write lib g (out_name_of argv))])).
Proof.
  intros A R M p q g acyclic.
  assert (N : q <> p) by apply fresh_twice_ne.
  unfold fsttopsort_main.
  destruct (Z.ltb_spec 3 (argc argv)); [lia|].
  cbv zeta. unfold bind at 1. rewrite (FstClass_Read_Some _ _ _ _ R).
  fold p. unfold bind, Properties_kMutable, new_VectorFstClass, free,
    TopSort, FstClass_Write, bind, ret, emit, alloc.
  rewrite (deref_live p f) by apply lookup_insert_eq.
  rewrite M. cbn [heap trace].
  rewrite (deref_live p f) by apply lookup_insert_eq.
  cbn [heap trace]. fold q.
  rewrite (deref_live p f)
    by (cbn [heap]; rewrite lookup_insert_ne by exact N;
        apply lookup_insert_eq).
  cbn [heap trace].
  rewrite delete_insert_ne by congruence.
  rewrite delete_insert_eq, (delete_id _ _ (fresh_not_live w)).
  rewrite (deref_live q (lib_vector_copy lib f)) by apply lookup_insert_eq.
  subst g acyclic. destruct (lib_topsort lib (lib_vector_copy lib f)) as [g a].
  cbn [heap trace fst snd]. rewrite insert_insert_eq.
  destruct a; cbn [negb heap trace];
    rewrite (deref_live q g) by apply lookup_insert_eq;
    cbn [heap trace]; now rewrite <- !app_assoc.
Qed.
End SortRuns.

(** * The tools: the statements *)

(** C3, as amended. The convert tool exits with code 1 when called with
    more than two file arguments; otherwise it exits with code 1 exactly
    when the read fails or the conversion it needs fails, and with code 0
    exactly when the read and, where the types differ, the conversion
    succeed. In that case it has called [Write] last, and exits with 0
    whatever [Write] returned. *)
Theorem fstconvert_exit_code {Fst : Type} (lib : script_lib Fst)
    (flag : string) (argv : list string) (w : world Fst) :
  exists code w',
    fstconvert_main lib flag argv w = Some (code, w')
    /\ (3 < argc argv -> code = 1)
    /\ (argc argv <= 3 ->
        (code = 1 <->
         lib_read lib (in_name_of argv) = None
         \/ exists f, lib_read lib (in_name_of argv) = Some f
                      /\ lib_fst_type lib f <> flag
                      /\ lib_convert lib f flag = None)
        /\ (code = 0 <->
            exists f, lib_read lib (in_name_of argv) = Some f
                      /\ (lib_fst_type lib f = flag
                          \/ exists g, lib_convert lib f flag = Some g))
        /\ (code = 0 ->
            exists evs p g,
              trace w'
              = evs ++ [EvWrite p g (out_name_of argv)
                          (lib_write lib g (out_name_of argv))])).
Proof.
  destruct (Z.ltb_spec 3 (argc argv)) as [A|A].
  { eexists _, _. split; [apply convert_run_usage; exact A|].
    split; [reflexivity|lia]. }
  destruct (lib_read lib (in_name_of argv)) as [f|] eqn:R.
  2:{ eexists _, _. split; [apply convert_run_read_fails; assumption|].
      split; [reflexivity|]. intros _. split; [|split].
      - split; [auto|reflexivity].
      - split; [discriminate|]. intros (f & E & _). discriminate.
      - discriminate. }
  destruct (String.eqb_spec (lib_fst_type lib f) flag) as [T|T].
  { eexists _, _. split; [apply (convert_run_same_type lib); eassumption|].
    split; [lia|]. intros _. split; [|split].
    - split; [discriminate|]. intros [E|(f' & E & N & _)]; [discriminate|].
      congruence.
    - split; [|reflexivity]. intros _. exists f. auto.
    - intros _. cbn [trace]. eexists (trace w ++ [_]), _, _.
      rewrite <- app_assoc. reflexivity. }
  destruct (lib_convert lib f flag) as [g|] eqn:C.
  - eexists _, _. split; [apply (convert_run_converts lib); eassumption|].
    split; [lia|]. intros _. split; [|split].
    + split; [discriminate|]. intros [E|(f' & E & _ & C')]; [discriminate|].
      congruence.
    + split; [|reflexivity]. intros _. exists f. eauto.
    + intros _. cbn [trace]. eexists (trace w ++ [_; _]), _, _.
      rewrite <- app_assoc. reflexivity.
  - eexists _, _. split; [apply (convert_run_convert_fails lib); eassumption|].
    split; [lia|]. intros _. split; [|split].
    + split; [|reflexivity]. intros _. right. exists f. auto.
    + split; [discriminate|]. intros (f' & E & [T'|(g & C')]); congruence.
    + discriminate.
Qed.

Lemma fstconvert_exit_code_witness :
  exists w',
    fstconvert_main vector_lib "vector" ["fstconvert"; "in.fst"; "out.fst"]
      empty_world
    = Some (0, w').
Proof.
  destruct (fstconvert_exit_code vector_lib "vector"
              ["fstconvert"; "in.fst"; "out.fst"] empty_world)
    as (code & w' & E & _ & H).
  destruct H as (_ & H0 & _); [vm_compute; congruence|].
  exists w'. rewrite E. do 2 f_equal. apply H0.
  exists ("vector", false). split; [reflexivity|]. left. reflexivity.
Defined.

(** C3, as stated, fails: the file is read, it has the type asked for, the
    write fails, and the exit code is 0, not 1. *)
Lemma fstconvert_write_fails_exit_0 :
  let argv := ["fstconvert"; "in.fst"; "out.fst"] in
  let r := fstconvert_main vector_lib "vector" argv empty_world in
  lib_read vector_lib (in_name_of argv) = Some ("vector", false)
  /\ lib_write vector_lib ("vector", false) (out_name_of argv) = false
  /\ r = Some (0, mk_world {[ 0%nat := ("vector", false) ]}
                    [EvRead "in.fst" (Some 0%nat);
                     EvWrite 0%nat ("vector", false) "out.fst" false])
  /\ option_map fst r <> Some 1.
Proof.
  cbv zeta.
  rewrite (convert_run_same_type vector_lib "vector" _ empty_world
             ("vector", false));
    [|vm_compute; congruence|reflexivity|reflexivity].
  repeat split. cbn. congruence.
Qed.

(** C10. In the convert tool, when the automaton read already has the
    type asked for, [Convert] is not called and no automaton object is
    made or released: the tool calls [Write] on the very pointer [Read]
    returned, whose object is the automaton read, and exits with 0. *)
Theorem fstconvert_same_type {Fst : Type} (lib : script_lib Fst)
    (flag : string) (argv : list string) (w : world Fst) (f : Fst) :
  argc argv <= 3 ->
  lib_read lib (in_name_of argv) = Some f ->
  lib_fst_type lib f = flag ->
  let p := fresh (dom (heap w)) in
  let evs := [EvRead (in_name_of argv) (Some p);
              EvWrite p f (out_name_of argv)
                (lib_write lib f (out_name_of argv))] in
  fstconvert_main lib flag argv w
  = Some (0, mk_world (<[p := f]> (heap w)) (trace w ++ evs))
  /\ forallb (fun e => negb (is_convert e)) evs = true
  /\ forallb (fun e => negb (is_new_or_delete e)) evs = true
  /\ heap w !! p = None.
Proof.
  intros A R T p evs. split; [|split; [reflexivity|split; [reflexivity|]]].
  - apply (convert_run_same_type lib); assumption.
  - apply fresh_not_live.
Qed.

Lemma fstconvert_same_type_witness :
  fstconvert_main vector_lib "vector" ["fstconvert"; "-"] empty_world
  = Some (0, mk_world {[ 0%nat := ("vector", false) ]}
               [EvRead "" (Some 0%nat);
                EvWrite 0%nat ("vector", false) "" false]).
Proof.
  apply (fstconvert_same_type vector_lib "vector" ["fstconvert"; "-"]
           empty_world ("vector", false));
    [vm_compute; congruence|reflexivity|reflexivity].
Defined.

(** C6. Called with at most two file arguments, the sort tool exits with
    code 1 exactly when the read fails and with code 0 otherwise. When the
    read succeeds it calls [Write] last, on the automaton [TopSort] has
    left in place, whether or not [TopSort] found it acyclic; when
    [TopSort] reports a cycle the warning is logged, and the exit code is
    still 0. *)
Theorem fsttopsort_exit_code {Fst : Type} (lib : script_lib Fst)
    (argv : list string) (w : world Fst) :
  argc argv <= 3 ->
  exists code w',
    fsttopsort_main lib argv w = Some (code, w')
    /\ (code = 1 <-> lib_read lib (in_name_of argv) = None)
    /\ (code = 0 <-> lib_read lib (in_name_of argv) <> None)
    /\ (forall f, lib_read lib (in_name_of argv) = Some f ->
        let sorted := lib_topsort lib (sort_input lib f) in
        code = 0
        /\ (exists evs p,
              trace w'
              = evs ++ [EvWrite p (fst sorted) (out_name_of argv)
                          (lib_write lib (fst sorted) (out_name_of argv))]
              /\ heap w' !! p = Some (fst sorted))
        /\ (snd sorted = false -> In (cyclic_warning argv) (trace w'))
        /\ (snd sorted = true -> ~ In (cyclic_warning argv)
                                    (skipn (length (trace w)) (trace w')))).
Proof.
  intros A.
  destruct (lib_read lib (in_name_of argv)) as [f|] eqn:R.
  2:{ eexists _, _. split; [apply sort_run_read_fails; assumption|].
      split; [tauto|]. split; [|discriminate].
      split; [discriminate|congruence]. }
  unfold sort_input.
  destruct (lib_is_mutable lib f) eqn:M.
  - eexists _, _.
    split; [apply (sort_run_mutable lib); eassumption|].
    split; [split; discriminate|]. split; [split; congruence|].
    intros f' E. injection E as <-. cbv zeta. rewrite M. cbn [trace heap].
    split; [reflexivity|]. split; [|split].
    + rewrite !app_assoc. eexists _, _.
      split; [reflexivity|apply lookup_insert_eq].
    + intros C. rewrite C. apply in_or_app. right. cbn. auto.
    + intros C. rewrite C, skipn_app, skipn_all, Nat.sub_diag. cbn.
      unfold cyclic_warning. intros [H|[H|[H|[]]]]; discriminate.
  - eexists _, _.
    split; [apply (sort_run_copy lib); eassumption|].
    split; [split; discriminate|]. split; [split; congruence|].
    intros f' E. injection E as <-. cbv zeta. rewrite M. cbn [trace heap].
    split; [reflexivity|]. split; [|split].
    + rewrite !app_assoc. eexists _, _.
      split; [reflexivity|apply lookup_insert_eq].
    + intros C. rewrite C. apply in_or_app. right. cbn. auto 6.
    + intros C. rewrite C, skipn_app, skipn_all, Nat.sub_diag. cbn.
      unfold cyclic_warning. intros [H|[H|[H|[H|[H|[]]]]]]; discriminate.
Qed.

Lemma fsttopsort_exit_code_witness :
  exists w',
    fsttopsort_main sample_lib ["fsttopsort"; "cyclic.fst"; "out.fst"]
      empty_world
    = Some (0, w')
    /\ In (cyclic_warning ["fsttopsort"; "cyclic.fst"; "out.fst"]) (trace w').
Proof.
  destruct (fsttopsort_exit_code sample_lib
              ["fsttopsort"; "cyclic.fst"; "out.fst"] empty_world)
    as (code & w' & E & _ & _ & H); [vm_compute; congruence|].
  destruct (H ("const", true) eq_refl) as (C & _ & L & _).
  exists w'. split; [now rewrite E, C|]. apply L. reflexivity.
Defined.

(** C8. In the sort tool, when the automaton read is not of a mutable
    encoding, a copy in the vector encoding is made, the object read is
    released, and it is the copy that is sorted and written, the tool
    exiting with 0 rather than failing; when the automaton read is
    mutable, no object is made or released and the object read is sorted
    where it is. *)
Theorem fsttopsort_mutable_or_copy {Fst : Type} (lib : script_lib Fst)
    (argv : list string) (w : world Fst) (f : Fst) :
  argc argv <= 3 ->
  lib_read lib (in_name_of argv) = Some f ->
  let p := fresh (dom (heap w)) in
  let q := fresh (dom (<[p := f]> (heap w))) in
  let warn (acyclic : bool) :=
    if acyclic then [] else [cyclic_warning argv] in
  (lib_is_mutable lib f = false ->
   let sorted := lib_topsort lib (lib_vector_copy lib f) in
   fsttopsort_main lib argv w
   = Some (0, mk_world (<[q := fst sorted]> (heap w))
                (trace w
                 ++ [EvRead (in_name_of argv) (Some p); EvNewVector p q;
                     EvDelete p; EvTopSort q (snd sorted)]
                 ++ warn (snd sorted)
                 ++ [EvWrite q (fst sorted) (out_name_of argv)
                       (lib_write lib (fst sorted) (out_name_of argv))]))
   /\ q <> p
   /\ (<[q := fst sorted]> (heap w)) !! p = None)
  /\ (lib_is_mutable lib f = true ->
      let sorted := lib_topsort lib f in
      fsttopsort_main lib argv w
      = Some (0, mk_world (<[p := fst sorted]> (heap w))
                   (trace w
                    ++ [EvRead (in_name_of argv) (Some p);
                        EvTopSort p (snd sorted)]
                    ++ warn (snd sorted)
                    ++ [EvWrite p (fst sorted) (out_name_of argv)
                          (lib_write lib (fst sorted) (out_name_of argv))]))).
Proof.
  intros A R p q warn. split.
  - intros M sorted.
    assert (N : q <> p) by apply fresh_twice_ne.
    split; [apply (sort_run_copy lib); assumption|].
    split; [exact N|].
    rewrite lookup_insert_ne by exact N. apply fresh_not_live.
  - intros M sorted. apply (sort_run_mutable lib); assumption.
Qed.

Lemma fsttopsort_mutable_or_copy_witness :
  fsttopsort_main sample_lib ["fsttopsort"; "in.fst"] empty_world
  = Some (0, mk_world {[ 1%nat := ("vector", false) ]}
               [EvRead "in.fst" (Some 0%nat); EvNewVector 0%nat 1%nat;
                EvDelete 0%nat; EvTopSort 1%nat true;
                EvWrite 1%nat ("vector", false) "" false])
  /\ fsttopsort_main vector_lib ["fsttopsort"; "in.fst"] empty_world
     = Some (0, mk_world {[ 0%nat := ("vector", false) ]}
                  [EvRead "in.fst" (Some 0%nat); EvTopSort 0%nat true;
                   EvWrite 0%nat ("vector", false) "" false]).
Proof.
  split.
  - destruct (fsttopsort_mutable_or_copy sample_lib ["fsttopsort"; "in.fst"]
                empty_world ("const", false)) as [H _];
      [vm_compute; congruence|reflexivity|].
    destruct (H eq_refl) as [E _]. exact E.
  - destruct (fsttopsort_mutable_or_copy vector_lib ["fsttopsort"; "in.fst"]
                empty_world ("vector", false)) as [_ H];
      [vm_compute; congruence|reflexivity|].
    exact (H eq_refl).
Defined.

(** * Further properties of the header code *)

(** ** More on the integer encoding *)

Lemma byte_of_Z_low (b : byte) (v : Z) : byte_of_Z (Z_of_byte b + 256 * v) = b.
Proof.
  unfold byte_of_Z. rewrite (Z.mul_comm 256 v), Z_mod_plus_full.
  apply byte_of_Z_of_byte.
Qed.

Lemma le_bytes_le_value (bs : list byte) :
  le_bytes (length bs) (le_value bs) = bs.
Proof.
  induction bs as [|b r IH]; [reflexivity|].
  cbn [length le_value le_bytes]. rewrite byte_of_Z_low. f_equal.
  rewrite Z.shiftr_div_pow2 by lia. change (2 ^ 8) with 256.
  rewrite (Z.mul_comm 256), Z.div_add by lia.
  rewrite Z.div_small by apply Z_of_byte_range.
  rewrite Z.add_0_l. exact IH.
Qed.

Lemma le_bytes_mod (n : nat) (z : Z) :
  le_bytes n (z mod 2 ^ (8 * Z.of_nat n)) = le_bytes n z.
Proof.
  rewrite <- le_value_le_bytes.
  rewrite <- (length_le_bytes n z) at 1. apply le_bytes_le_value.
Qed.

(** The bytes of a variable are the encoding of the value they hold. *)
Lemma encode_decode (t : ctype) (bs : list byte) :
  length bs = size_of t -> encode t (decode t bs) = bs.
Proof.
  intros L. unfold encode, decode.
  rewrite <- le_bytes_mod.
  assert (E : of_bits t (le_value bs) mod 2 ^ (8 * Z.of_nat (size_of t))
              = le_value bs).
  { pose proof (le_value_range bs) as R. rewrite L in R.
    unfold of_bits. fold (bits_of t) in R |- *.
    destruct (is_signed t && (2 ^ (bits_of t - 1) <=? le_value bs)).
    - rewrite <- (Z.mod_add _ 1) by lia.
      replace (le_value bs - 2 ^ bits_of t + 1 * 2 ^ bits_of t)
        with (le_value bs) by lia.
      now apply Z.mod_small.
    - now apply Z.mod_small. }
  rewrite E, <- L. apply le_bytes_le_value.
Qed.

(** ** What a read that did not fail has done *)

Lemma remaining_advance_skipn (s : istream) (n : nat) :
  remaining (advance s n) = skipn n (remaining s).
Proof.
  unfold remaining, advance. cbn [in_buf in_pos].
  now rewrite skipn_skipn, Nat.add_comm.
Qed.

Lemma length_remaining (s : istream) :
  length (remaining s) = (length (in_buf s) - in_pos s)%nat.
Proof. unfold remaining. apply length_skipn. Qed.

Lemma read_ok_inv (s : istream) (n : nat) :
  in_fail (snd (read s n)) = false ->
  in_good s = true /\ (n <= length (remaining s))%nat
  /\ read s n = (firstn n (remaining s), advance s n).
Proof.
  unfold read. destruct (in_good s); [|discriminate].
  destruct (Nat.leb_spec n (length (remaining s))); [|discriminate].
  intros _. repeat split. assumption.
Qed.

Lemma read_length (s : istream) (n : nat) : (length (fst (read s n)) <= n)%nat.
Proof.
  unfold read. destruct (in_good s); [|cbn; lia].
  destruct (Nat.leb_spec n (length (remaining s))); cbn [fst].
  - rewrite length_firstn. lia.
  - lia.
Qed.

Lemma ReadType_int_ok_inv (t : ctype) (s : istream) (cur : Z) :
  in_fail (snd (ReadType_int t s cur)) = false ->
  in_good s = true /\ (size_of t <= length (remaining s))%nat
  /\ ReadType_int t s cur
     = (decode t (firstn (size_of t) (remaining s)), advance s (size_of t)).
Proof.
  unfold ReadType_int. intros F.
  assert (F' : in_fail (snd (read s (size_of t))) = false)
    by (destruct (read s (size_of t)); exact F).
  destruct (read_ok_inv s _ F') as (G & L & E). rewrite E.
  repeat split; try assumption.
  rewrite length_firstn, Nat.min_l by exact L.
  rewrite <- (length_encode t cur), skipn_all, app_nil_r. reflexivity.
Qed.

(** The stream a read leaves does not depend on what the variable held. *)
Lemma ReadType_int_snd (t : ctype) (s : istream) (cur cur' : Z) :
  snd (ReadType_int t s cur) = snd (ReadType_int t s cur').
Proof. unfold ReadType_int. now destruct (read s (size_of t)). Qed.

Lemma ReadType_int_indep (t : ctype) (s s' : istream) (cur cur' v : Z) :
  ReadType_int t s cur = (v, s') -> in_fail s' = false ->
  ReadType_int t s cur' = (v, s').
Proof.
  intros E F.
  assert (F1 : in_fail (snd (ReadType_int t s cur)) = false) by now rewrite E.
  assert (F2 : in_fail (snd (ReadType_int t s cur')) = false)
    by now rewrite (ReadType_int_snd t s cur' cur).
  destruct (ReadType_int_ok_inv t s cur F1) as (_ & _ & E1).
  destruct (ReadType_int_ok_inv t s cur' F2) as (_ & _ & E2).
  congruence.
Qed.

(** Whatever the stream delivers, the variable holds a value of its
    type. *)
Lemma ReadType_int_in_range (t : ctype) (s : istream) (cur : Z) :
  in_range t (fst (ReadType_int t s cur)).
Proof.
  unfold ReadType_int. pose proof (read_length s (size_of t)) as L.
  destruct (read s (size_of t)) as [bs s']. cbn [fst] in *.
  apply decode_in_range.
  rewrite length_app, length_skipn, length_encode. lia.
Qed.

Lemma length_string_of_list_byte (bs : list byte) :
  String.length (string_of_list_byte bs) = length bs.
Proof.
  rewrite <- length_list_byte_of_string.
  now rewrite list_byte_of_string_of_list_byte.
Qed.

Lemma ReadType_string_length (s : istream) :
  Z.of_nat (String.length (fst (ReadType_string s))) < 2 ^ 31.
Proof.
  unfold ReadType_string.
  pose proof (ReadType_int_in_range Int32 s 0) as R.
  destruct (ReadType_int Int32 s 0) as [ns s1]. cbn [fst] in R.
  unfold in_range in R. cbn [is_signed] in R. widths.
  destruct (Z.leb_spec ns 0); [cbn; lia|].
  pose proof (read_length s1 (Z.to_nat ns)) as L.
  destruct (read s1 (Z.to_nat ns)) as [bs s2]. cbn [fst] in *.
  rewrite length_string_of_list_byte. lia.
Qed.

Lemma reads_from_ok_back (s s' : istream) :
  reads_from s s' -> in_fail s' = false -> in_fail s = false.
Proof.
  intros H F. destruct (in_fail s) eqn:E; [|reflexivity].
  now rewrite (reads_from_keeps_fail s s' H E) in F.
Qed.

Lemma ReadType_int_advances (t : ctype) (s : istream) (cur : Z) :
  in_fail (snd (ReadType_int t s cur)) = false ->
  in_pos (snd (ReadType_int t s cur)) = (in_pos s + size_of t)%nat.
Proof.
  intros F. destruct (ReadType_int_ok_inv t s cur F) as (_ & _ & E).
  now rewrite E.
Qed.

Lemma ReadType_string_advances (s : istream) :
  in_fail (snd (ReadType_string s)) = false ->
  (in_pos s + 4 <= in_pos (snd (ReadType_string s)))%nat.
Proof.
  unfold ReadType_string.
  pose proof (ReadType_int_advances Int32 s 0) as A.
  pose proof (ReadType_int_reads_from Int32 s 0) as H.
  destruct (ReadType_int Int32 s 0) as [ns s1]. cbn [snd size_of] in *.
  destruct (Z.leb_spec ns 0); cbn [snd].
  - intros F. rewrite (A F). lia.
  - pose proof (read_reads_from s1 (Z.to_nat ns)) as H1.
    destruct (read s1 (Z.to_nat ns)) as [bs s2]. cbn [snd] in *.
    intros F. assert (H2 : reads_from s1 s2) by (apply H1; lia).
    pose proof (reads_from_ok_back _ _ H2 F) as F1.
    pose proof (A F1). pose proof (rf_pos _ _ H2). lia.
Qed.

(** Opens [read_fields h s] into its eight reads, with what each leaves of
    the stream before it. *)
Ltac open_fields h s :=
  unfold read_fields;
  let H1 := fresh "H1" in let H2 := fresh "H2" in let H3 := fresh "H3" in
  let H4 := fresh "H4" in let H5 := fresh "H5" in let H6 := fresh "H6" in
  let H7 := fresh "H7" in let H8 := fresh "H8" in
  pose proof (ReadType_string_reads_from s) as H1;
  destruct (ReadType_string s) as [x1 s1] eqn:E1; cbn [snd] in H1;
  pose proof (ReadType_string_reads_from s1) as H2;
  destruct (ReadType_string s1) as [x2 s2] eqn:E2; cbn [snd] in H2;
  pose proof (ReadType_int_reads_from Int32 s2 (version_ h)) as H3;
  destruct (ReadType_int Int32 s2 (version_ h)) as [x3 s3] eqn:E3;
  cbn [snd] in H3;
  pose proof (ReadType_int_reads_from Int32 s3 (flags_ h)) as H4;
  destruct (ReadType_int Int32 s3 (flags_ h)) as [x4 s4] eqn:E4;
  cbn [snd] in H4;
  pose proof (ReadType_int_reads_from UInt64 s4 (properties_ h)) as H5;
  destruct (ReadType_int UInt64 s4 (properties_ h)) as [x5 s5] eqn:E5;
  cbn [snd] in H5;
  pose proof (ReadType_int_reads_from Int64 s5 (start_ h)) as H6;
  destruct (ReadType_int Int64 s5 (start_ h)) as [x6 s6] eqn:E6;
  cbn [snd] in H6;
  pose proof (ReadType_int_reads_from Int64 s6 (numstates_ h)) as H7;
  destruct (ReadType_int Int64 s6 (numstates_ h)) as [x7 s7] eqn:E7;
  cbn [snd] in H7;
  pose proof (ReadType_int_reads_from Int64 s7 (numarcs_ h)) as H8;
  destruct (ReadType_int Int64 s7 (numarcs_ h)) as [x8 s8] eqn:E8;
  cbn [snd] in H8.

(** Field reads that did not fail have moved the stream by 48 bytes at
    least. *)
Lemma read_fields_advances (h : FstHeader) (s : istream) :
  in_fail (snd (read_fields h s)) = false ->
  (in_pos s + 48 <= in_pos (snd (read_fields h s)))%nat.
Proof.
  open_fields h s. cbn [snd]. intros F8.
  pose proof (reads_from_ok_back _ _ H8 F8) as F7.
  pose proof (reads_from_ok_back _ _ H7 F7) as F6.
  pose proof (reads_from_ok_back _ _ H6 F6) as F5.
  pose proof (reads_from_ok_back _ _ H5 F5) as F4.
  pose proof (reads_from_ok_back _ _ H4 F4) as F3.
  pose proof (reads_from_ok_back _ _ H3 F3) as F2.
  pose proof (reads_from_ok_back _ _ H2 F2) as F1.
  pose proof (ReadType_string_advances s) as A1. rewrite E1 in A1.
  pose proof (ReadType_string_advances s1) as A2. rewrite E2 in A2.
  pose proof (ReadType_int_advances Int32 s2 (version_ h)) as A3.
  rewrite E3 in A3.
  pose proof (ReadType_int_advances Int32 s3 (flags_ h)) as A4.
  rewrite E4 in A4.
  pose proof (ReadType_int_advances UInt64 s4 (properties_ h)) as A5.
  rewrite E5 in A5.
  pose proof (ReadType_int_advances Int64 s5 (start_ h)) as A6.
  rewrite E6 in A6.
  pose proof (ReadType_int_advances Int64 s6 (numstates_ h)) as A7.
  rewrite E7 in A7.
  pose proof (ReadType_int_advances Int64 s7 (numarcs_ h)) as A8.
  rewrite E8 in A8.
  cbn [snd size_of] in *.
  specialize (A1 F1). specialize (A2 F2). specialize (A3 F3).
  specialize (A4 F4). specialize (A5 F5). specialize (A6 F6).
  specialize (A7 F7). specialize (A8 F8). lia.
Qed.

(** Field reads that did not fail yield the same header whatever the
    header object held before. *)
Lemma read_fields_indep (h h' : FstHeader) (s : istream) :
  in_fail (snd (read_fields h s)) = false ->
  read_fields h' s = read_fields h s.
Proof.
  intros F. unfold read_fields at 1. revert F.
  open_fields h s. cbn [snd]. intros F8.
  pose proof (reads_from_ok_back _ _ H8 F8) as F7.
  pose proof (reads_from_ok_back _ _ H7 F7) as F6.
  pose proof (reads_from_ok_back _ _ H6 F6) as F5.
  pose proof (reads_from_ok_back _ _ H5 F5) as F4.
  pose proof (reads_from_ok_back _ _ H4 F4) as F3.
  rewrite (ReadType_int_indep _ _ _ _ (version_ h') _ E3 F3).
  rewrite (ReadType_int_indep _ _ _ _ (flags_ h') _ E4 F4).
  rewrite (ReadType_int_indep _ _ _ _ (properties_ h') _ E5 F5).
  rewrite (ReadType_int_indep _ _ _ _ (start_ h') _ E6 F6).
  rewrite (ReadType_int_indep _ _ _ _ (numstates_ h') _ E7 F7).
  rewrite (ReadType_int_indep _ _ _ _ (numarcs_ h') _ E8 F8).
  reflexivity.
Qed.

(** The header the field reads leave holds values of the field types,
    whether or not the reads failed. *)
Lemma read_fields_wf (h : FstHeader) (s : istream) :
  header_wf (fst (read_fields h s)).
Proof.
  unfold read_fields.
  pose proof (ReadType_string_length s) as L1.
  destruct (ReadType_string s) as [x1 s1].
  pose proof (ReadType_string_length s1) as L2.
  destruct (ReadType_string s1) as [x2 s2].
  pose proof (ReadType_int_in_range Int32 s2 (version_ h)) as R3.
  destruct (ReadType_int Int32 s2 (version_ h)) as [x3 s3].
  pose proof (ReadType_int_in_range Int32 s3 (flags_ h)) as R4.
  destruct (ReadType_int Int32 s3 (flags_ h)) as [x4 s4].
  pose proof (ReadType_int_in_range UInt64 s4 (properties_ h)) as R5.
  destruct (ReadType_int UInt64 s4 (properties_ h)) as [x5 s5].
  pose proof (ReadType_int_in_range Int64 s5 (start_ h)) as R6.
  destruct (ReadType_int Int64 s5 (start_ h)) as [x6 s6].
  pose proof (ReadType_int_in_range Int64 s6 (numstates_ h)) as R7.
  destruct (ReadType_int Int64 s6 (numstates_ h)) as [x7 s7].
  pose proof (ReadType_int_in_range Int64 s7 (numarcs_ h)) as R8.
  destruct (ReadType_int Int64 s7 (numarcs_ h)) as [x8 s8].
  cbn [fst] in *. split; assumption.
Qed.

Lemma seekg_buf (s : istream) (pos : Z) : in_buf (seekg s pos) = in_buf s.
Proof.
  unfold seekg. cbn [in_buf in_fail in_seekable].
  destruct (in_fail s); [reflexivity|].
  now destruct (in_seekable s && (0 <=? pos)
                && (pos <=? Z.of_nat (length (in_buf s)))).
Qed.

Lemma magic_read_bytes (s : istream) (m rest : list byte) :
  in_good s = true -> remaining s = m ++ rest -> length m = 4%nat ->
  magic_read s = decode Int32 m /\ after_magic s = advance s 4.
Proof.
  intros G R L. unfold magic_read, after_magic, ReadType_int.
  cbn [size_of]. rewrite <- L, (read_exact s m rest G R). cbn [fst snd].
  rewrite L. change (length (encode Int32 0)) with 4%nat.
  split; [|reflexivity].
  change (skipn 4 (encode Int32 0)) with (@nil byte).
  now rewrite app_nil_r.
Qed.

Lemma magic_read_not_good (s : istream) :
  in_good s = false -> magic_read s = 0 /\ after_magic s = set_fail s.
Proof.
  intros G. unfold magic_read, after_magic, ReadType_int, read.
  rewrite G. split; reflexivity.
Qed.

(** ** The statements *)

(** X1. The [rewind] flag of [FstHeader::Read] bears on the stream only:
    the value returned, the header read and the lines logged are the same
    with and without it. *)
Theorem Read_rewind_only_moves_stream (h : FstHeader) (s : istream)
    (source : string) :
  let a := Read h s source true in
  let b := Read h s source false in
  r_ok a = r_ok b /\ r_header a = r_header b /\ r_log a = r_log b.
Proof.
  cbv zeta. rewrite !Read_unfold. cbv zeta.
  destruct (negb (magic_read s =? kFstMagicNumber)); [repeat split|].
  destruct (in_fail (snd (read_fields h (after_magic s)))); repeat split.
Qed.

(** X2. [FstHeader::Read] never changes the bytes of the stream, and
    without [rewind] it never moves the stream backwards. *)
Theorem Read_keeps_buffer (h : FstHeader) (s : istream) (source : string)
    (rewind : bool) :
  let o := Read h s source rewind in
  in_buf (r_strm o) = in_buf s
  /\ (rewind = false -> (in_pos s <= in_pos (r_strm o))%nat).
Proof.
  cbv zeta. rewrite Read_unfold. cbv zeta.
  pose proof (after_magic_reads_from s) as A.
  pose proof (read_fields_reads_from h (after_magic s)) as B.
  pose proof (reads_from_trans _ _ _ A B) as C.
  destruct (negb (magic_read s =? kFstMagicNumber)); cbn [r_strm].
  - split.
    + destruct rewind; [rewrite seekg_buf|]; apply (rf_buf _ _ A).
    + intros ->. apply (rf_pos _ _ A).
  - destruct (in_fail (snd (read_fields h (after_magic s)))); cbn [r_strm].
    + split; [apply (rf_buf _ _ C)|intros _; apply (rf_pos _ _ C)].
    + split.
      * destruct rewind; [rewrite seekg_buf|]; apply (rf_buf _ _ C).
      * intros ->. apply (rf_pos _ _ C).
Qed.

Lemma Read_keeps_buffer_witness :
  (in_pos truncated_stream
   <= in_pos (r_strm (Read blank_header truncated_stream "in.fst" false)))%nat.
Proof.
  apply (Read_keeps_buffer blank_header truncated_stream "in.fst" false).
  reflexivity.
Defined.

(** X3. Read without [rewind] from a good stream that holds the bytes of
    a well-formed header [h] next, [FstHeader::Read] succeeds, yields [h]
    and leaves the stream good and right behind the header: what followed
    the header is what is left to read. *)
Theorem Read_leaves_rest (h h0 : FstHeader) (s : istream) (source : string)
    (rest : list byte) :
  header_wf h -> in_good s = true ->
  remaining s = header_bytes h ++ rest ->
  let o := Read h0 s source false in
  r_ok o = true /\ r_header o = h
  /\ in_good (r_strm o) = true /\ remaining (r_strm o) = rest.
Proof.
  intros W G R. cbv zeta.
  rewrite (Read_header_bytes h h0 s source false rest W G
             ltac:(discriminate) R).
  cbn [r_ok r_header r_strm]. repeat split.
  now apply remaining_advance.
Qed.

Lemma Read_leaves_rest_witness :
  remaining
    (r_strm (Read blank_header
               (stream_of (header_bytes sample_header ++ [x2a; x2b]))
               "in.fst" false))
  = [x2a; x2b].
Proof.
  apply (Read_leaves_rest sample_header blank_header
           (stream_of (header_bytes sample_header ++ [x2a; x2b])) "in.fst"
           [x2a; x2b]);
    [split; vm_compute; repeat split; congruence|reflexivity|reflexivity].
Defined.

(** X4. A header takes 52 bytes at least: on every stream with fewer
    bytes left, [FstHeader::Read] returns failure. *)
Theorem Read_short_fails (h : FstHeader) (s : istream) (source : string)
    (rewind : bool) :
  (length (remaining s) < min_header_size)%nat ->
  r_ok (Read h s source rewind) = false.
Proof.
  intros L. rewrite Read_unfold. cbv zeta.
  destruct (negb (magic_read s =? kFstMagicNumber)) eqn:M; [reflexivity|].
  destruct (in_fail (snd (read_fields h (after_magic s)))) eqn:F;
    [reflexivity|exfalso].
  apply negb_false_iff, Z.eqb_eq in M.
  destruct (magic_read_match s M) as (_ & A & _).
  pose proof (read_fields_advances h (after_magic s) F) as P.
  pose proof (read_fields_reads_from h (after_magic s)) as [B _ _ K].
  destruct (K F) as (_ & _ & Q).
  rewrite A in P, Q. cbn [advance in_pos in_buf] in P, Q.
  rewrite length_remaining in L. unfold min_header_size in L. lia.
Qed.

Lemma Read_short_fails_witness :
  r_ok (Read blank_header
          (stream_of (firstn 51 (header_bytes blank_header))) "in.fst" false)
  = false.
Proof.
  apply (Read_short_fails blank_header
           (stream_of (firstn 51 (header_bytes blank_header))) "in.fst" false).
  vm_compute. lia.
Defined.

(** X5. A corrupted magic number is always detected: when the next four
    bytes of a good stream are not the bytes of the sentinel, [Read] with
    [rewind] returns failure, logs the bad header with the number found
    and leaves the header object as it was; when the stream can seek it
    also leaves the stream as it was. *)
Theorem Read_corrupt_magic (h : FstHeader) (s : istream) (source : string)
    (m rest : list byte) :
  in_good s = true -> remaining s = m ++ rest -> length m = 4%nat ->
  m <> encode Int32 kFstMagicNumber ->
  let o := Read h s source true in
  r_ok o = false /\ r_header o = h
  /\ r_log o
     = [(ERROR, ("FstHeader::Read: Bad FST header: " ++ source
                 ++ ". Magic number not matched. Got: "
                 ++ show_int (decode Int32 m))%string)]
  /\ (in_seekable s = true -> r_strm o = s).
Proof.
  intros G R L N. cbv zeta. rewrite Read_unfold. cbv zeta.
  destruct (magic_read_bytes s m rest G R L) as (M & A).
  assert (D : decode Int32 m <> kFstMagicNumber).
  { intros E. apply N. rewrite <- E. symmetry. now apply encode_decode. }
  rewrite M. apply Z.eqb_neq in D. rewrite D.
  cbn [negb r_ok r_header r_strm r_log].
  split; [reflexivity|]. split; [reflexivity|]. split; [reflexivity|].
  intros S.
  apply rewind_after_reads; [exact S|apply after_magic_reads_from|].
  now rewrite A.
Qed.

Lemma Read_corrupt_magic_witness :
  r_strm
    (Read blank_header
       (stream_of ([xd6; xfd; xb2; x7f] ++ skipn 4 (header_bytes sample_header)))
       "in.fst" true)
  = stream_of ([xd6; xfd; xb2; x7f] ++ skipn 4 (header_bytes sample_header)).
Proof.
  apply (Read_corrupt_magic blank_header
           (stream_of ([xd6; xfd; xb2; x7f]
                       ++ skipn 4 (header_bytes sample_header)))
           "in.fst" [xd6; xfd; xb2; x7f]
           (skipn 4 (header_bytes sample_header)));
    [reflexivity|reflexivity|reflexivity|vm_compute; congruence|reflexivity].
Defined.

(** X6. On a stream that can seek, a header can be looked at and then
    read: when [Read] with [rewind] succeeds there, a second [Read] from
    the stream it leaves, into any header object and with or without
    [rewind], succeeds and yields the same header. *)
Theorem Read_peek_then_read (h h' : FstHeader) (s : istream)
    (source source' : string) (rewind' : bool) :
  in_seekable s = true ->
  let o := Read h s source true in
  r_ok o = true ->
  let o' := Read h' (r_strm o) source' rewind' in
  r_ok o' = true /\ r_header o' = r_header o.
Proof.
  intros K0. cbv zeta. intros K.
  assert (S : r_strm (Read h s source true) = s).
  { revert K. rewrite Read_unfold. cbv zeta.
    destruct (negb (magic_read s =? kFstMagicNumber)); [discriminate|].
    destruct (in_fail (snd (read_fields h (after_magic s)))) eqn:F;
      [discriminate|].
    intros _. cbn [r_strm].
    apply rewind_after_reads; [exact K0| |exact F].
    eapply reads_from_trans;
      [apply after_magic_reads_from|apply read_fields_reads_from]. }
  rewrite S. revert K. rewrite !Read_unfold. cbv zeta.
  destruct (negb (magic_read s =? kFstMagicNumber)); [discriminate|].
  destruct (in_fail (snd (read_fields h (after_magic s)))) eqn:F;
    [discriminate|].
  intros _. rewrite (read_fields_indep h h' _ F), F. split; reflexivity.
Qed.

Lemma Read_peek_then_read_witness :
  r_header
    (Read sample_header
       (r_strm (Read blank_header (stream_of (header_bytes sample_header))
                  "in.fst" true))
       "in.fst" false)
  = r_header
      (Read blank_header (stream_of (header_bytes sample_header)) "in.fst"
         true).
Proof.
  apply (Read_peek_then_read blank_header sample_header
           (stream_of (header_bytes sample_header)) "in.fst" "in.fst" false);
    reflexivity.
Defined.

(** X7. Every header a successful [Read] yields is well formed, and so
    survives being written and read again: [Write] of it to a sink with
    room, then [Read] of the bytes written, yields it again. *)
Theorem Read_result_round_trips (h h0 : FstHeader) (s : istream)
    (source source' : string) (rewind rewind' : bool) (pre suf : list byte) :
  let o := Read h s source rewind in
  r_ok o = true ->
  header_wf (r_header o)
  /\ let written := Write (r_header o) (mk_ostream pre None false) source in
     let back :=
       Read h0
         (mk_istream (out_buf (snd written) ++ suf) (length pre) false false)
         source' rewind' in
     r_ok back = true /\ r_header back = r_header o.
Proof.
  cbv zeta. intros K.
  assert (W : header_wf (r_header (Read h s source rewind))).
  { revert K. rewrite Read_unfold. cbv zeta.
    destruct (negb (magic_read s =? kFstMagicNumber)); [discriminate|].
    destruct (in_fail (snd (read_fields h (after_magic s))));
      [discriminate|].
    intros _. apply read_fields_wf. }
  split; [exact W|].
  rewrite (Write_room _ pre source W). cbn [fst snd out_buf].
  set (hr := r_header (Read h s source rewind)) in *.
  set (s1 := mk_istream ((pre ++ header_bytes hr) ++ suf) (length pre)
               false false).
  assert (R : remaining s1 = header_bytes hr ++ suf).
  { unfold remaining, s1, mk_istream. cbn [in_buf in_pos].
    rewrite <- app_assoc, skipn_app, skipn_all, Nat.sub_diag. reflexivity. }
  rewrite (Read_header_bytes hr h0 s1 source' rewind' suf W eq_refl
             (fun _ => eq_refl) R).
  split; reflexivity.
Qed.

Lemma Read_result_round_trips_witness :
  header_wf
    (r_header
       (Read blank_header (stream_of (header_bytes sample_header)) "in.fst"
          false)).
Proof.
  apply (Read_result_round_trips blank_header blank_header
           (stream_of (header_bytes sample_header)) "in.fst" "in.fst" false
           false [] []).
  reflexivity.
Defined.

(** X8. On a stream that is not good at entry (failed, or at end of
    file) [Read] extracts nothing: it returns failure, reports a bad
    header with the number 0, leaves the header object and the position as
    they were, and leaves the stream failed. *)
Theorem Read_on_bad_stream (h : FstHeader) (s : istream) (source : string)
    (rewind : bool) :
  in_good s = false ->
  let o := Read h s source rewind in
  r_ok o = false /\ r_header o = h
  /\ in_buf (r_strm o) = in_buf s /\ in_pos (r_strm o) = in_pos s
  /\ in_fail (r_strm o) = true
  /\ r_log o
     = [(ERROR, ("FstHeader::Read: Bad FST header: " ++ source
                 ++ ". Magic number not matched. Got: 0")%string)].
Proof.
  intros G. cbv zeta. rewrite Read_unfold. cbv zeta.
  destruct (magic_read_not_good s G) as (M & A). rewrite M, A.
  change (negb (0 =? kFstMagicNumber)) with true.
  cbn [r_ok r_header r_strm r_log].
  destruct rewind; repeat split.
Qed.

Lemma Read_on_bad_stream_witness :
  r_ok (Read blank_header
          (mk_istream (header_bytes sample_header) 0 true false) "in.fst" true)
  = false.
Proof.
  apply (Read_on_bad_stream blank_header
           (mk_istream (header_bytes sample_header) 0 true false) "in.fst"
           true).
  reflexivity.
Defined.

(** * Further properties of Write *)

(** Two writes in a row are one write of the two pieces. *)
Lemma write_app (s : ostream) (a b : list byte) :
  write (write s a) b = write s (a ++ b).
Proof.
  unfold write at 2 3. destruct (out_bad s) eqn:B.
  - unfold write. now rewrite B.
  - destruct (out_room s) as [r|] eqn:R.
    + rewrite length_app.
      destruct (Nat.leb_spec (length a) r) as [La|La].
      * unfold write. cbn [out_bad out_room out_buf].
        destruct (Nat.leb_spec (length b) (r - length a)) as [Lb|Lb].
        -- destruct (Nat.leb_spec (length a + length b) r); [|lia].
           rewrite <- app_assoc. do 2 f_equal. lia.
        -- destruct (Nat.leb_spec (length a + length b) r); [lia|].
           rewrite <- app_assoc, firstn_app, (firstn_all2 a) by exact La.
           reflexivity.
      * destruct (Nat.leb_spec (length a + length b) r); [lia|].
        unfold write. cbn [out_bad].
        rewrite firstn_app.
        replace (r - length a)%nat with 0%nat by lia.
        cbn [firstn]. now rewrite app_nil_r.
    + unfold write. cbn [out_bad out_room out_buf].
      now rewrite <- app_assoc.
Qed.

Lemma WriteType_string_write (strm : ostream) (str : string) :
  Z.of_nat (String.length str) < 2 ^ 31 ->
  WriteType_string strm str = write strm (wire_string str).
Proof.
  intros L. unfold WriteType_string, wire_string.
  rewrite decode_encode by now apply in_range_string_length.
  rewrite Nat2Z.id, <- length_list_byte_of_string, firstn_all.
  apply write_app.
Qed.

Lemma Write_write (h : FstHeader) (strm : ostream) (source : string) :
  header_wf h -> Write h strm source = (true, write strm (header_bytes h)).
Proof.
  intros [L1 L2 _ _ _ _ _ _]. unfold Write, header_bytes, WriteType_int.
  rewrite !WriteType_string_write by assumption.
  now rewrite !write_app.
Qed.

Lemma write_prefix (s : ostream) (bs : list byte) :
  out_buf s `prefix_of` out_buf (write s bs).
Proof.
  unfold write. destruct (out_bad s); [reflexivity|].
  destruct (out_room s) as [r|].
  - destruct (length bs <=? r)%nat; cbn [out_buf]; now eexists.
  - cbn [out_buf]. now eexists.
Qed.

Lemma write_room (s : ostream) (bs : list byte) (r : nat) :
  out_room s = Some r ->
  exists r', out_room (write s bs) = Some r' /\ (r' <= r)%nat
             /\ (length (out_buf (write s bs))
                 <= length (out_buf s) + (r - r'))%nat.
Proof.
  intros R. unfold write. destruct (out_bad s).
  - exists r. rewrite R. repeat split; lia.
  - rewrite R. destruct (Nat.leb_spec (length bs) r); cbn [out_room out_buf].
    + eexists. split; [reflexivity|]. rewrite length_app. lia.
    + eexists. split; [reflexivity|].
      rewrite length_app, length_firstn. lia.
Qed.

Lemma Write_as_write (h : FstHeader) (source : string) :
  exists bs : list byte,
    forall strm : ostream, Write h strm source = (true, write strm bs).
Proof.
  eexists. intros strm. unfold Write, WriteType_int, WriteType_string.
  rewrite !write_app. reflexivity.
Qed.

(** X9. For a well-formed header, [FstHeader::Write] on any sink amounts
    to one write of the header layout. On a sink in good state with room
    for [r] more bytes it appends the first [r] bytes of the layout, the
    whole of it when it fits, and the sink faults exactly when the header
    is longer than [r]. *)
Theorem Write_is_one_append (h : FstHeader) (strm : ostream)
    (source : string) :
  header_wf h ->
  Write h strm source = (true, write strm (header_bytes h))
  /\ (forall r : nat,
        out_bad strm = false -> out_room strm = Some r ->
        out_buf (snd (Write h strm source))
        = out_buf strm ++ firstn r (header_bytes h)
        /\ (out_bad (snd (Write h strm source)) = true
            <-> (r < length (header_bytes h))%nat)).
Proof.
  intros W. rewrite (Write_write h strm source W). split; [reflexivity|].
  intros r B R. cbn [snd]. unfold write. rewrite B, R.
  destruct (Nat.leb_spec (length (header_bytes h)) r) as [L|L];
    cbn [out_buf out_bad].
  - rewrite firstn_all2 by exact L. split; [reflexivity|].
    split; [discriminate|lia].
  - split; [reflexivity|]. split; [intros _; exact L|reflexivity].
Qed.

Lemma Write_is_one_append_witness :
  out_buf (snd (Write sample_header small_sink "out.fst"))
  = out_buf small_sink ++ firstn 10 (header_bytes sample_header).
Proof.
  destruct (Write_is_one_append sample_header small_sink "out.fst")
    as [_ H]; [split; vm_compute; repeat split; congruence|].
  apply (H 10%nat); reflexivity.
Defined.

(** X10. [FstHeader::Write] only appends: whatever the header and the
    sink, the bytes the sink held before are a prefix of what it holds
    after, and a bounded sink never takes more bytes than it had room
    for. *)
Theorem Write_appends_only (h : FstHeader) (strm : ostream)
    (source : string) :
  out_buf strm `prefix_of` out_buf (snd (Write h strm source))
  /\ (forall r : nat,
        out_room strm = Some r ->
        (length (out_buf (snd (Write h strm source)))
         <= length (out_buf strm) + r)%nat).
Proof.
  destruct (Write_as_write h source) as [bs E]. rewrite E. cbn [snd]. split.
  - apply write_prefix.
  - intros r R. destruct (write_room strm bs r R) as (r' & _ & _ & L). lia.
Qed.

Lemma Write_appends_only_witness :
  (length (out_buf (snd (Write sample_header small_sink "out.fst")))
   <= length (out_buf small_sink) + 10)%nat.
Proof.
  destruct (Write_appends_only sample_header small_sink "out.fst") as [_ H].
  apply (H 10%nat). reflexivity.
Defined.

(** * Further properties of FstReadOptions *)

Lemma ReadMode_MAP_iff (mode : string) :
  fst (ReadMode mode) = MAP <-> mode = "map".
Proof.
  unfold ReadMode.
  destruct (String.eqb_spec mode "read") as [->|R]; [easy|].
  destruct (String.eqb_spec mode "map") as [->|M]; [easy|].
  cbn. split; [discriminate|contradiction].
Qed.

Lemma ReadMode_silent_iff (mode : string) :
  snd (ReadMode mode) = [] <-> mode = "read" \/ mode = "map".
Proof.
  unfold ReadMode.
  destruct (String.eqb_spec mode "read") as [->|R]; [cbn; tauto|].
  destruct (String.eqb_spec mode "map") as [->|M]; [cbn; tauto|].
  cbn. split; [discriminate|tauto].
Qed.

(** X11. Both constructors of [FstReadOptions] keep the arguments they
    are given, turn the reading of both symbol tables on and take the mode
    from the flag: memory mapping exactly when the flag is ["map"], an
    error logged exactly when the flag is neither ["read"] nor ["map"].
    The constructor without a header yields what the other yields for a
    null header. *)
Theorem FstReadOptions_constructed {SymbolTable : Type} (flag source : string)
    (header : option FstHeader) (isymbols osymbols : option SymbolTable) :
  let made := FstReadOptions_with_header flag source header isymbols osymbols in
  let o := fst made in
  opt_source o = source /\ opt_header o = header
  /\ opt_isymbols o = isymbols /\ opt_osymbols o = osymbols
  /\ opt_read_isymbols o = true /\ opt_read_osymbols o = true
  /\ (opt_mode o = MAP <-> flag = "map")
  /\ (opt_mode o = READ <-> flag <> "map")
  /\ (snd made = [] <-> flag = "read" \/ flag = "map")
  /\ FstReadOptions_no_header flag source isymbols osymbols
     = FstReadOptions_with_header flag source None isymbols osymbols.
Proof.
  cbv zeta. unfold FstReadOptions_with_header, FstReadOptions_no_header.
  pose proof (ReadMode_MAP_iff flag) as M.
  pose proof (ReadMode_silent_iff flag) as S.
  destruct (ReadMode flag) as [mode log]. cbn [fst snd] in *.
  cbn [opt_source opt_header opt_isymbols opt_osymbols opt_read_isymbols
       opt_read_osymbols opt_mode].
  repeat split; try tauto.
  - intros E. rewrite E in M. intros F. apply M in F. discriminate.
  - intros N. destruct mode; [reflexivity|]. exfalso. apply N, M. reflexivity.
Qed.

(** * Further properties of the tools *)

Lemma new_events_app {Fst : Type} (w : world Fst) (h : gmap nat Fst)
    (evs : list (event Fst)) :
  new_events w (mk_world h (trace w ++ evs)) = evs.
Proof.
  unfold new_events. cbn [trace].
  now rewrite skipn_app, skipn_all, Nat.sub_diag.
Qed.

Lemma fresh_after_not_live {Fst : Type} (w : world Fst) (f : Fst) :
  heap w !! fresh (dom (<[fresh (dom (heap w)) := f]> (heap w))) = None.
Proof.
  apply not_elem_of_dom.
  pose proof (is_fresh (dom (<[fresh (dom (heap w)) := f]> (heap w)))) as N.
  set (q := fresh (dom (<[fresh (dom (heap w)) := f]> (heap w)))) in *.
  rewrite dom_insert_L in N. apply not_elem_of_union in N.
  destruct N as [_ N]. exact N.
Qed.

Lemma insert_frame {Fst : Type} (m : gmap nat Fst) (p p0 : nat) (x v : Fst) :
  m !! p = None -> m !! p0 = Some v -> <[p := x]> m !! p0 = Some v.
Proof.
  intros N L. rewrite lookup_insert_ne; [exact L|]. congruence.
Qed.

(** Splits a run of the convert tool into its five cases and rewrites the
    run into its outcome. *)
Ltac convert_cases lib flag argv w :=
  let A := fresh "A" in let R := fresh "R" in
  let T := fresh "T" in let C := fresh "C" in
  let f := fresh "f" in let g := fresh "g" in
  destruct (Z.ltb_spec 3 (argc argv)) as [A|A];
  [ rewrite (convert_run_usage lib flag argv w A)
  | destruct (lib_read lib (in_name_of argv)) as [f|] eqn:R;
    [ destruct (String.eqb_spec (lib_fst_type lib f) flag) as [T|T];
      [ rewrite (convert_run_same_type lib flag argv w f A R T)
      | destruct (lib_convert lib f flag) as [g|] eqn:C;
        [ rewrite (convert_run_converts lib flag argv w f g A R T C)
        | rewrite (convert_run_convert_fails lib flag argv w f A R T C) ] ]
    | rewrite (convert_run_read_fails lib flag argv w A R) ] ].

(** The same for the sort tool and its four cases. *)
Ltac sort_cases lib argv w :=
  let A := fresh "A" in let R := fresh "R" in let M := fresh "M" in
  let f := fresh "f" in
  destruct (Z.ltb_spec 3 (argc argv)) as [A|A];
  [ rewrite (sort_run_usage lib argv w A)
  | destruct (lib_read lib (in_name_of argv)) as [f|] eqn:R;
    [ destruct (lib_is_mutable lib f) eqn:M;
      [ rewrite (sort_run_mutable lib argv w f A R M)
      | rewrite (sort_run_copy lib argv w f A R M) ]
    | rewrite (sort_run_read_fails lib argv w A R) ] ].

(** X12. Called with more than two file arguments, either tool shows its
    usage and exits with code 1 without reading or writing anything: no
    automaton object is made and the only event is the usage text. *)
Theorem tools_usage_only {Fst : Type} (lib : script_lib Fst) (flag : string)
    (argv : list string) (w : world Fst) :
  3 < argc argv ->
  (exists w',
     fstconvert_main lib flag argv w = Some (1, w')
     /\ heap w' = heap w
     /\ new_events w w'
        = [EvShowUsage (usage_of "Converts an FST to another type." argv)])
  /\ (exists w',
        fsttopsort_main lib argv w = Some (1, w')
        /\ heap w' = heap w
        /\ new_events w w'
           = [EvShowUsage (usage_of "Topologically sorts an FST." argv)]).
Proof.
  intros A. split.
  - rewrite (convert_run_usage lib flag argv w A). eexists.
    split; [reflexivity|]. split; [reflexivity|apply new_events_app].
  - rewrite (sort_run_usage lib argv w A). eexists.
    split; [reflexivity|]. split; [reflexivity|apply new_events_app].
Qed.

Lemma tools_usage_only_witness :
  exists w',
    fsttopsort_main sample_lib ["fsttopsort"; "a"; "b"; "c"] empty_world
    = Some (1, w')
    /\ heap w' = heap (@empty_world (string * bool)).
Proof.
  destruct (tools_usage_only sample_lib "vector"
              ["fsttopsort"; "a"; "b"; "c"] empty_world) as [_ H];
    [vm_compute; reflexivity|].
  destruct H as (w' & E & Hh & _). exists w'. split; assumption.
Defined.


(** X14. The tools leave the automata they did not make alone: every
    object that is live before a run of either tool is live after it, and
    unchanged. *)
Theorem tools_frame {Fst : Type} (lib : script_lib Fst) (flag : string)
    (argv : list string) (w : world Fst) (p0 : ptr) (x : Fst) :
  heap w !! p0 = Some x ->
  (forall code w',
     fstconvert_main lib flag argv w = Some (code, w') ->
     heap w' !! p0 = Some x)
  /\ (forall code w',
        fsttopsort_main lib argv w = Some (code, w') ->
        heap w' !! p0 = Some x).
Proof.
  intros L.
  pose proof (fresh_not_live w) as N.
  split; intros code w'.
  - convert_cases lib flag argv w; intros E; injection E as <- <-;
      cbn [heap]; try exact L.
    + now apply insert_frame.
    + apply insert_frame; [|now apply insert_frame].
      apply not_elem_of_dom, is_fresh.
    + now apply insert_frame.
  - sort_cases lib argv w; intros E; injection E as <- <-;
      cbn [heap]; try exact L.
    + now apply insert_frame.
    + apply insert_frame; [apply fresh_after_not_live|exact L].
Qed.

Lemma tools_frame_witness :
  match fsttopsort_main sample_lib ["fsttopsort"; "in.fst"]
          (mk_world {[ 0%nat := ("const", false) ]} []) with
  | Some (_, w') => heap w' !! 0%nat = Some ("const", false)
  | None => False
  end.
Proof.
  destruct (fsttopsort_main sample_lib ["fsttopsort"; "in.fst"]
              (mk_world {[ 0%nat := ("const", false) ]} []))
    as [[code w']|] eqn:E; [|vm_compute in E; discriminate E].
  destruct (tools_frame sample_lib "vector" ["fsttopsort"; "in.fst"]
              (mk_world {[ 0%nat := ("const", false) ]} []) 0%nat
              ("const", false)) as [_ H]; [reflexivity|].
  exact (H code w' E).
Defined.

(** X15. A tool has called [Write] exactly once when it exits with code
    0 and not at all when it exits with code 1: after a failed read, a
    failed conversion or a usage error nothing is written. *)
Theorem tools_write_iff_exit_0 {Fst : Type} (lib : script_lib Fst)
    (flag : string) (argv : list string) (w : world Fst) :
  (forall code w',
     fstconvert_main lib flag argv w = Some (code, w') ->
     length (filter (fun e => is_write e = true) (new_events w w'))
     = if code =? 0 then 1%nat else 0%nat)
  /\ (forall code w',
        fsttopsort_main lib argv w = Some (code, w') ->
        length (filter (fun e => is_write e = true) (new_events w w'))
        = if code =? 0 then 1%nat else 0%nat).
Proof.
  split; intros code w'.
  - convert_cases lib flag argv w; intros E; injection E as <- <-;
      rewrite new_events_app; reflexivity.
  - sort_cases lib argv w; intros E; injection E as <- <-;
      rewrite new_events_app; try reflexivity.
    + now destruct (snd (lib_topsort lib f)).
    + now destruct (snd (lib_topsort lib (lib_vector_copy lib f))).
Qed.

Lemma tools_write_iff_exit_0_witness :
  match fstconvert_main sample_lib "const" ["fstconvert"; "in.fst"; "out.fst"]
          empty_world with
  | Some (code, w') =>
      code = 0
      /\ length (filter (fun e => is_write e = true)
                   (new_events empty_world w')) = 1%nat
  | None => False
  end.
Proof.
  destruct (fstconvert_main sample_lib "const"
              ["fstconvert"; "in.fst"; "out.fst"] empty_world)
    as [[code w']|] eqn:E; [|vm_compute in E; discriminate E].
  assert (C : code = 0) by (vm_compute in E; congruence).
  split; [exact C|].
  rewrite (proj1 (tools_write_iff_exit_0 sample_lib "const"
                    ["fstconvert"; "in.fst"; "out.fst"] empty_world)
             code w' E).
  now rewrite C.
Defined.

(** X16. The convert tool never releases an automaton: no run of it
    contains a [delete], and after a conversion both the automaton read
    and the converted one are live at exit, two objects more than
    before. *)
Theorem fstconvert_never_deletes {Fst : Type} (lib : script_lib Fst)
    (flag : string) (argv : list string) (w : world Fst) (code : Z)
    (w' : world Fst) :
  fstconvert_main lib flag argv w = Some (code, w') ->
  Forall (fun e => is_delete e = false) (new_events w w')
  /\ dom (heap w) ⊆ dom (heap w')
  /\ (Exists (fun e => is_convert e = true) (new_events w w') ->
      code = 0 ->
      size (heap w') = S (S (size (heap w)))).
Proof.
  pose proof (fresh_not_live w) as N.
  convert_cases lib flag argv w; intros E; injection E as <- <-;
    rewrite new_events_app; cbn [heap];
    (split; [repeat constructor|]).
  - split; [reflexivity|]. intros X. inversion X as [? ? B|? ? B]; inversion B.
  - split; [rewrite dom_insert_L; set_solver|]. intros X.
    inversion X as [? ? B|? ? B]; [discriminate B|].
    inversion B as [? ? B'|? ? B']; [discriminate B'|inversion B'].
  - split; [rewrite !dom_insert_L; set_solver|]. intros _ _.
    rewrite !map_size_insert_None; [reflexivity|exact N|].
    apply not_elem_of_dom, is_fresh.
  - split; [rewrite dom_insert_L; set_solver|]. intros _ D. discriminate D.
  - split; [reflexivity|]. intros X. inversion X as [? ? B|? ? B]; inversion B.
Qed.

Lemma fstconvert_never_deletes_witness :
  match fstconvert_main sample_lib "vector" ["fstconvert"; "in.fst"]
          empty_world with
  | Some (code, w') => code = 0 /\ size (heap w') = 2%nat
  | None => False
  end.
Proof.
  destruct (fstconvert_main sample_lib "vector" ["fstconvert"; "in.fst"]
              empty_world) as [[code w']|] eqn:E;
    [|vm_compute in E; discriminate E].
  assert (C : code = 0) by (vm_compute in E; congruence).
  split; [exact C|].
  destruct (fstconvert_never_deletes sample_lib "vector"
              ["fstconvert"; "in.fst"] empty_world code w' E) as (_ & _ & H).
  rewrite H; [reflexivity| |exact C].
  vm_compute in E. injection E as _ <-. vm_compute.
  apply Exists_cons_tl, Exists_cons_hd. reflexivity.
Defined.

(** X17. After a successful read the sort tool leaves exactly one
    automaton more live than before, the sorted one, whether it sorted the
    automaton read where it was or a copy: the copy is made before the
    original is released, and the original is released exactly when a
    copy is made. *)
Theorem fsttopsort_one_more_live {Fst : Type} (lib : script_lib Fst)
    (argv : list string) (w : world Fst) (w' : world Fst) :
  fsttopsort_main lib argv w = Some (0, w') ->
  size (heap w') = S (size (heap w))
  /\ exists f p,
       lib_read lib (in_name_of argv) = Some f
       /\ heap w !! p = None
       /\ heap w' = <[p := fst (lib_topsort lib (sort_input lib f))]> (heap w)
       /\ (length (filter (fun e => is_delete e = true) (new_events w w'))
           = if lib_is_mutable lib f then 0%nat else 1%nat).
Proof.
  sort_cases lib argv w; intros E; try discriminate E; injection E as <-.
  - cbn [heap]. split.
    + apply map_size_insert_None, fresh_not_live.
    + exists f, (fresh (dom (heap w))). unfold sort_input. rewrite M.
      repeat split; [apply fresh_not_live|].
      rewrite new_events_app. now destruct (snd (lib_topsort lib f)).
  - cbn [heap]. split.
    + apply map_size_insert_None, fresh_after_not_live.
    + exists f, (fresh (dom (<[fresh (dom (heap w)) := f]> (heap w)))).
      unfold sort_input. rewrite M.
      repeat split; [apply fresh_after_not_live|].
      rewrite new_events_app.
      now destruct (snd (lib_topsort lib (lib_vector_copy lib f))).
Qed.

Lemma fsttopsort_one_more_live_witness :
  match fsttopsort_main sample_lib ["fsttopsort"; "in.fst"] empty_world with
  | Some (code, w') => code = 0 /\ size (heap w') = 1%nat
  | None => False
  end.
Proof.
  destruct (fsttopsort_main sample_lib ["fsttopsort"; "in.fst"] empty_world)
    as [[code w']|] eqn:E; [|vm_compute in E; discriminate E].
  assert (C : code = 0) by (vm_compute in E; congruence).
  split; [exact C|]. subst code.
  destruct (fsttopsort_one_more_live sample_lib ["fsttopsort"; "in.fst"]
              empty_world w' E) as (H & _).
  rewrite H. reflexivity.
Defined.

Lemma in_name_of_dash (prog : string) (rest : list string) :
  in_name_of (prog :: "-" :: rest) = "".
Proof. unfold in_name_of. cbn [arg nth]. now rewrite andb_false_r. Qed.

Lemma in_name_of_empty (prog : string) (rest : list string) :
  in_name_of (prog :: "" :: rest) = "".
Proof.
  unfold in_name_of. cbn [arg nth].
  now destruct ((1 <? argc (prog :: "" :: rest)) && negb ("" =? "-")%string).
Qed.

(** X18. For both tools the input name ["-"] stands for the standard
    input as no name does: a command line whose first file argument is
    ["-"] runs as the one with the empty name in its place, and
    [tool -] runs as [tool] alone. *)
Theorem tools_dash_is_stdin {Fst : Type} (lib : script_lib Fst) (flag : string)
    (prog : string) (rest : list string) (w : world Fst) :
  fstconvert_main lib flag (prog :: "-" :: rest) w
  = fstconvert_main lib flag (prog :: "" :: rest) w
  /\ fsttopsort_main lib (prog :: "-" :: rest) w
     = fsttopsort_main lib (prog :: "" :: rest) w
  /\ fstconvert_main lib flag [prog; "-"] w = fstconvert_main lib flag [prog] w
  /\ fsttopsort_main lib [prog; "-"] w = fsttopsort_main lib [prog] w
  /\ in_name_of (prog :: "-" :: rest) = "".
Proof.
  assert (U : forall what,
             usage_of what (prog :: "-" :: rest)
             = usage_of what (prog :: "" :: rest)) by reflexivity.
  assert (O : out_name_of (prog :: "-" :: rest)
              = out_name_of (prog :: "" :: rest)) by reflexivity.
  assert (A : argc (prog :: "-" :: rest) = argc (prog :: "" :: rest))
    by reflexivity.
  split; [|split; [|split; [|split]]].
  - unfold fstconvert_main.
    now rewrite in_name_of_dash, in_name_of_empty, U, O, A.
  - unfold fsttopsort_main.
    now rewrite in_name_of_dash, in_name_of_empty, U, O, A.
  - unfold fstconvert_main. rewrite in_name_of_dash. reflexivity.
  - unfold fsttopsort_main. rewrite in_name_of_dash. reflexivity.
  - apply in_name_of_dash.
Qed.

(** * Read with rewind on a stream that cannot seek *)

Lemma seekg_not_seekable_pos (s : istream) (pos : Z) :
  in_seekable s = false -> in_pos (seekg s pos) = in_pos s.
Proof.
  intros S. unfold seekg. cbn [in_fail in_seekable in_pos]. rewrite S.
  now destruct (in_fail s).
Qed.

(** X20. On a stream that cannot seek (a pipe, the standard input),
    [Read] with [rewind] leaves the stream failed on every return, also
    when it returns success, and at the position where [Read] without
    [rewind] leaves it: nothing is repositioned. *)
Theorem Read_rewind_fails_pipe (h : FstHeader) (s : istream)
    (source : string) :
  in_seekable s = false ->
  let a := Read h s source true in
  let b := Read h s source false in
  in_fail (r_strm a) = true /\ in_pos (r_strm a) = in_pos (r_strm b).
Proof.
  intros S. cbv zeta. rewrite !Read_unfold. cbv zeta.
  pose proof (after_magic_reads_from s) as A.
  pose proof (read_fields_reads_from h (after_magic s)) as B.
  pose proof (reads_from_trans _ _ _ A B) as C.
  destruct (negb (magic_read s =? kFstMagicNumber)); cbn [r_strm].
  - assert (S1 : in_seekable (after_magic s) = false)
      by now rewrite (rf_seek _ _ A).
    split; [now apply seekg_not_seekable|now apply seekg_not_seekable_pos].
  - destruct (in_fail (snd (read_fields h (after_magic s)))) eqn:F;
      cbn [r_strm]; [split; [exact F|reflexivity]|].
    assert (S1 : in_seekable (snd (read_fields h (after_magic s))) = false)
      by now rewrite (rf_seek _ _ C).
    split; [now apply seekg_not_seekable|now apply seekg_not_seekable_pos].
Qed.

Lemma Read_rewind_fails_pipe_witness :
  r_ok (Read blank_header (pipe_of (header_bytes sample_header)) "" true)
  = true
  /\ in_fail
       (r_strm (Read blank_header (pipe_of (header_bytes sample_header)) ""
                  true))
     = true.
Proof.
  split; [reflexivity|].
  apply (Read_rewind_fails_pipe blank_header
           (pipe_of (header_bytes sample_header)) "").
  reflexivity.
Defined.
